(** * etcd-raft: utilities, the test network and the election scenarios

    A shallow embedding of [util.go] (message classification tables,
    [voteRespMsgType], entry descriptions, [limitSize], payload accounting,
    [extend]) and of the test network of [raft2.go], together with the
    properties the specification states about them.

    Conventions.  Go's [uint64] and [int] are integers of [Z] whose
    wrap-around is written out with [u64] and [i64].  A function that can
    panic returns an [option] or an [outcome].  Maps are stdpp's [gmap]. *)

From Stdlib Require Import ZArith Lia Bool HexString Sorted.
From stdpp Require Import base option list gmap strings.

Local Open Scope Z_scope.

(** ** Machine integers *)

(** The value of an integer converted to [uint64]. *)
Definition u64 (z : Z) : Z := z mod 2 ^ 64.

(** The value of an integer converted to a 64-bit [int]. *)
Definition i64 (z : Z) : Z := (z + 2 ^ 63) mod 2 ^ 64 - 2 ^ 63.

(** [len] of a slice, a Go [int]. *)
Definition len {A : Type} (l : list A) : Z := Z.of_nat (length l).

(** ** raftpb: entries *)

(** [raftpb.EntryType], a protobuf enum (a Go [int32]); the last
    constructor stands for every value without a name. *)
Inductive EntryType :=
| EntryNormal
| EntryConfChange
| EntryConfChangeV2
| EntryTypeUnknown (v : Z).

Module Entry.
Record t := mk {
  Term : Z;
  Index : Z;
  Type' : EntryType;
  Data : list Byte.byte
}.
End Entry.

#[global] Instance EntryType_eq_dec : EqDecision EntryType.
Proof. solve_decision. Defined.

#[global] Instance byte_eq_dec : EqDecision Byte.byte.
Proof. intros x y; unfold Decision; apply Byte.byte_eq_dec. Defined.

#[global] Instance Entry_eq_dec : EqDecision Entry.t.
Proof. solve_decision. Defined.

(** ** Encoded sizes and [limitSize] *)

Section EncodingSize.

(** [Entry.Size()] is generated protobuf code of raftpb, which is not part
    of the sources at hand; it is a parameter.  It returns a Go [int]. *)
Variable Size : Entry.t -> Z.

(** [entsSize]: the running sum is an [entryEncodingSize], a [uint64]. *)
Definition entsSize (ents : list Entry.t) : Z :=
  fold_left (fun size ent => u64 (size + u64 (Size ent))) ents 0.

(** The loop of [limitSize].  [rest] is [ents[limit:]] and [size] the sum of
    the sizes of [ents[:limit]], an [int]. *)
Fixpoint limitSize_loop (ents : list Entry.t) (maxSize : Z) (size : Z)
    (limit : nat) (rest : list Entry.t) : list Entry.t :=
  match rest with
  | [] => ents
  | e :: rest' =>
      let size := i64 (size + i64 (Size e)) in
      if u64 size >? maxSize then take limit ents
      else limitSize_loop ents maxSize size (S limit) rest'
  end.

Definition limitSize (ents : list Entry.t) (maxSize : Z) : list Entry.t :=
  match ents with
  | [] => ents
  | e0 :: rest => limitSize_loop ents maxSize (i64 (Size e0)) 1 rest
  end.

End EncodingSize.

(** ** Payload sizes *)

(** [payloadSize]: [entryPayloadSize(len(e.Data))]. *)
Definition payloadSize (e : Entry.t) : Z := u64 (len (Entry.Data e)).

(** [payloadsSize]: the sum is an [entryPayloadSize], a [uint64]. *)
Definition payloadsSize (ents : list Entry.t) : Z :=
  fold_left (fun s e => u64 (s + payloadSize e)) ents 0.

(** ** Slices with capacity, and [extend] *)

(** A slice of entries: the [elems] are the cells below [len], the [spare]
    cells are those of the backing array between [len] and [cap]. *)
Module Slice.
Record t := mk {
  elems : list Entry.t;
  spare : list Entry.t
}.
Definition length (s : t) : nat := List.length (elems s).
Definition cap (s : t) : nat := (List.length (elems s) + List.length (spare s))%nat.
End Slice.

(** The zero value of [raftpb.Entry]. *)
Definition zeroEntry : Entry.t := Entry.mk 0 0 EntryNormal [].

(** [make([]raftpb.Entry, n, n)]. *)
Definition make (n : nat) : Slice.t := Slice.mk (replicate n zeroEntry) [].

(** [copy(buf[off:], src)]: overwrites the cells of [buf] from [off] on with
    the first [min(len(buf) - off, len(src))] elements of [src]. *)
Definition copy_at (buf : Slice.t) (off : nat) (src : list Entry.t) : Slice.t :=
  let room := (Slice.length buf - off)%nat in
  let src' := take room src in
  Slice.mk (take off (Slice.elems buf) ++ src'
            ++ drop (off + List.length src') (Slice.elems buf))
           (Slice.spare buf).

(** The built-in [append(dst, vals...)].  When the capacity suffices the
    values are written into the spare cells; otherwise a new array is
    allocated whose capacity the language leaves to the implementation:
    [grow cap need] is the number of cells allocated beyond [need]. *)
Definition append (grow : nat -> nat -> nat) (dst : Slice.t) (vals : list Entry.t) : Slice.t :=
  let need := (Slice.length dst + List.length vals)%nat in
  if (need <=? Slice.cap dst)%nat
  then Slice.mk (Slice.elems dst ++ vals) (drop (List.length vals) (Slice.spare dst))
  else Slice.mk (Slice.elems dst ++ vals) (replicate (grow (Slice.cap dst) need) zeroEntry).

(** [extend]. *)
Definition extend (grow : nat -> nat -> nat) (dst : Slice.t) (vals : list Entry.t) : Slice.t :=
  let need := (Slice.length dst + List.length vals)%nat in
  if (need <=? Slice.cap dst)%nat then append grow dst vals
  else
    let buf := make need in
    let buf := copy_at buf 0 (Slice.elems dst) in
    let buf := copy_at buf (Slice.length dst) vals in
    buf.

(** ** raftpb: message kinds *)

(** The kinds of messages: those the specification lists as the closed set
    of kinds, and [MsgSnapStatus], which the table [isLocalMsg] names. *)
Inductive MessageType :=
| MsgHup | MsgBeat | MsgProp | MsgApp | MsgAppResp | MsgVote | MsgVoteResp
| MsgSnap | MsgHeartbeat | MsgHeartbeatResp | MsgUnreachable | MsgSnapStatus
| MsgCheckQuorum | MsgTransferLeader | MsgTimeoutNow | MsgReadIndex
| MsgReadIndexResp | MsgPreVote | MsgPreVoteResp | MsgStorageAppend
| MsgStorageAppendResp | MsgStorageApply | MsgStorageApplyResp.

#[global] Instance MessageType_eq_dec : EqDecision MessageType.
Proof. solve_decision. Defined.

Definition allMessageTypes : list MessageType :=
  [MsgHup; MsgBeat; MsgProp; MsgApp; MsgAppResp; MsgVote; MsgVoteResp;
   MsgSnap; MsgHeartbeat; MsgHeartbeatResp; MsgUnreachable; MsgSnapStatus;
   MsgCheckQuorum; MsgTransferLeader; MsgTimeoutNow; MsgReadIndex;
   MsgReadIndexResp; MsgPreVote; MsgPreVoteResp; MsgStorageAppend;
   MsgStorageAppendResp; MsgStorageApply; MsgStorageApplyResp].

(** The ordinals of the kinds in raftpb's protobuf enum, as generated for
    etcd-raft v3.  The enum declaration is not part of the sources at hand:
    the classification functions below take the ordinals as a parameter,
    and this table only instantiates them. *)
Definition raftpb_ord (k : MessageType) : Z :=
  match k with
  | MsgHup => 0 | MsgBeat => 1 | MsgProp => 2 | MsgApp => 3 | MsgAppResp => 4
  | MsgVote => 5 | MsgVoteResp => 6 | MsgSnap => 7 | MsgHeartbeat => 8
  | MsgHeartbeatResp => 9 | MsgUnreachable => 10 | MsgSnapStatus => 11
  | MsgCheckQuorum => 12 | MsgTransferLeader => 13 | MsgTimeoutNow => 14
  | MsgReadIndex => 15 | MsgReadIndexResp => 16 | MsgPreVote => 17
  | MsgPreVoteResp => 18 | MsgStorageAppend => 19 | MsgStorageAppendResp => 20
  | MsgStorageApply => 21 | MsgStorageApplyResp => 22
  end.

(** ** The classification tables *)

(** Go's array literal [[...]bool{k1: true, ..., kn: true}]: its length is
    the largest key plus one, and the cells without a key are [false]. *)
Definition arrayLit (keys : list Z) : list bool :=
  let n := Z.to_nat (foldr Z.max (-1) keys + 1) in
  (fun i : nat => bool_decide (Z.of_nat i ∈ keys)) <$> seq 0 n.

(** [arr[i]] on a slice: an index out of range is a run-time panic,
    [None]. *)
Definition index {A : Type} (arr : list A) (i : Z) : option A :=
  if (i <? 0) || (len arr <=? i) then None else arr !! Z.to_nat i.

(** [isMsgInArray].  [msgt] is the value of a [raftpb.MessageType], a Go
    [int32], and [int(msgt)] has the same value.  [&&] evaluates its right
    operand only when the left one is true. *)
Definition isMsgInArray (msgt : Z) (arr : list bool) : option bool :=
  let i := msgt in
  if i <? len arr then index arr i else Some false.

Section Classification.

(** The value of each kind in raftpb's enum. *)
Variable ord : MessageType -> Z.

Definition isLocalMsg : list bool :=
  arrayLit (ord <$> [MsgHup; MsgBeat; MsgUnreachable; MsgSnapStatus;
                     MsgCheckQuorum; MsgStorageAppend; MsgStorageAppendResp;
                     MsgStorageApply; MsgStorageApplyResp]).

Definition isResponseMsg : list bool :=
  arrayLit (ord <$> [MsgAppResp; MsgVoteResp; MsgHeartbeatResp; MsgUnreachable;
                     MsgReadIndexResp; MsgPreVoteResp; MsgStorageAppendResp;
                     MsgStorageApplyResp]).

Definition IsLocalMsg (msgt : Z) : option bool := isMsgInArray msgt isLocalMsg.

Definition IsResponseMsg (msgt : Z) : option bool := isMsgInArray msgt isResponseMsg.

End Classification.

(** The classification the specification gives as a static mapping from
    kinds to attributes. *)
Definition spec_local (k : MessageType) : bool :=
  match k with
  | MsgHup | MsgBeat | MsgUnreachable | MsgSnapStatus | MsgCheckQuorum
  | MsgStorageAppend | MsgStorageAppendResp | MsgStorageApply
  | MsgStorageApplyResp => true
  | _ => false
  end.

Definition spec_response (k : MessageType) : bool :=
  match k with
  | MsgAppResp | MsgVoteResp | MsgHeartbeatResp | MsgUnreachable
  | MsgReadIndexResp | MsgPreVoteResp | MsgStorageAppendResp
  | MsgStorageApplyResp => true
  | _ => false
  end.

(** [voteRespMsgType]; [None] is the panic of the [default] branch. *)
Definition voteRespMsgType (msgt : MessageType) : option MessageType :=
  match msgt with
  | MsgVote => Some MsgVoteResp
  | MsgPreVote => Some MsgPreVoteResp
  | _ => None
  end.

(** ** Describing entries *)

(** The string of the one character of a line feed. *)
Definition newline : string := String (Ascii.ascii_of_nat 10) EmptyString.

(** An [EntryFormatter] is a function value; [None] is [nil]. *)
Definition EntryFormatter : Type := option (list Byte.byte -> string).

(** Calling a function value: calling [nil] is a run-time panic, [None]. *)
Definition call (f : EntryFormatter) (data : list Byte.byte) : option string :=
  match f with
  | Some g => Some (g data)
  | None => None
  end.

Section Describe.

(** The formatting verbs of [fmt] and the conf-change codec of raftpb are
    library code; they are parameters. *)

(** [fmt.Sprintf("%q", data)]. *)
Variable sprintf_q : list Byte.byte -> string.

(** [fmt.Sprintf("%d/%d %s%s", term, index, type, formatted)]. *)
Variable sprintf_entry : Z -> Z -> EntryType -> string -> string.

(** [cc.Unmarshal(e.Data)] for [raftpb.ConfChange] and
    [raftpb.ConfChangeV2]: the text of the error, or the value. *)
Variable ConfChange ConfChangeV2 : Type.
Variable unmarshalConfChange : list Byte.byte -> string + ConfChange.
Variable unmarshalConfChangeV2 : list Byte.byte -> string + ConfChangeV2.

(** [raftpb.ConfChangesToString(cc.AsV2().Changes)] for the two
    implementations of [raftpb.ConfChangeI]. *)
Variable formatConfChange : ConfChange -> string.
Variable formatConfChangeV2 : ConfChangeV2 -> string.

(** The function that [DescribeEntry] substitutes for a [nil] formatter. *)
Definition defaultFormatter : EntryFormatter := Some (fun data => sprintf_q data).

Definition DescribeEntry (e : Entry.t) (f : EntryFormatter) : option string :=
  let f := if f is None then defaultFormatter else f in
  formatted ←
    match Entry.Type' e with
    | EntryNormal => call f (Entry.Data e)
    | EntryConfChange =>
        match unmarshalConfChange (Entry.Data e) with
        | inl err => Some err
        | inr cc => Some (formatConfChange cc)
        end
    | EntryConfChangeV2 =>
        match unmarshalConfChangeV2 (Entry.Data e) with
        | inl err => Some err
        | inr cc => Some (formatConfChangeV2 cc)
        end
    | EntryTypeUnknown _ => Some EmptyString
    end;
  let formatted :=
    if bool_decide (formatted ≠ EmptyString) then String.append " " formatted
    else formatted in
  Some (sprintf_entry (Entry.Term e) (Entry.Index e) (Entry.Type' e) formatted).

(** [DescribeEntries]: the buffer is threaded through the loop. *)
Fixpoint DescribeEntries_loop (buf : string) (ents : list Entry.t)
    (f : EntryFormatter) : option string :=
  match ents with
  | [] => Some buf
  | e :: ents' =>
      s ← DescribeEntry e f;
      DescribeEntries_loop (String.append buf (String.append s newline)) ents' f
  end.

Definition DescribeEntries (ents : list Entry.t) (f : EntryFormatter) : option string :=
  DescribeEntries_loop EmptyString ents f.

End Describe.

(** ** Outcomes of the effectful code *)

(** What a call comes to: a result, a Go panic, a step that leaves the
    fragment of the state machine modelled below, or an exhausted bound on
    the iterations of a loop. *)
Inductive outcome (A : Type) : Type :=
| Ok (a : A)
| Panic (why : string)
| Unmodelled (what : string)
| OutOfFuel.

Arguments Ok {A} a.
Arguments Panic {A} why.
Arguments Unmodelled {A} what.
Arguments OutOfFuel {A}.

#[global] Instance outcome_ret : MRet outcome := fun A a => Ok a.

#[global] Instance outcome_bind : MBind outcome := fun A B f m =>
  match m with
  | Ok a => f a
  | Panic why => Panic why
  | Unmodelled what => Unmodelled what
  | OutOfFuel => OutOfFuel
  end.

#[global] Instance outcome_fmap : FMap outcome := fun A B f m =>
  match m with
  | Ok a => Ok (f a)
  | Panic why => Panic why
  | Unmodelled what => Unmodelled what
  | OutOfFuel => OutOfFuel
  end.

(** ** raftpb: messages *)

(** Modelled from the spec: the message of sections 3 and 6 with the fields
    the election and append paths use (raftpb is not part of the sources at
    hand); [raft2.go] builds messages from [From], [To] and [Type]. *)
Module Message.
Record t := mk {
  Type' : MessageType;
  To : Z;
  From : Z;
  Term : Z;
  LogTerm : Z;
  Index : Z;
  Entries : list Entry.t;
  Commit : Z;
  Reject : bool;
  RejectHint : Z
}.
End Message.

(** A message of a kind between two nodes, every other field zero. *)
Definition msg (ty : MessageType) (from to : Z) : Message.t :=
  Message.mk ty to from 0 0 0 [] 0 false 0.

(** ** The package [slices] of the repository *)

Fixpoint insert_sorted (x : Z) (l : list Z) : list Z :=
  match l with
  | [] => [x]
  | y :: l' => if x <=? y then x :: l else y :: insert_sorted x l'
  end.

(** [SortUint64]: [slices.Sort], ascending. *)
Definition SortUint64 (a : list Z) : list Z := foldr insert_sorted [] a.

(** ** The state machine, from the specification

    [raft.go], [log.go], [storage.go] and the tracker are not part of the
    sources at hand.  The definitions of this section are modelled from the
    specification (sections 3, 4 and 8); they cover the election and the
    append path that follows it, without ticks, snapshots, learners, joint
    configurations, check-quorum, read-index and proposals.  A message of a
    kind outside this fragment makes [Step] answer [Unmodelled]. *)

(** Modelled from the spec: the four roles of section 4.1, under the names
    [raft2.go] uses. *)
Inductive StateType :=
| StateFollower
| StateCandidate
| StateLeader
| StatePreCandidate.

#[global] Instance StateType_eq_dec : EqDecision StateType.
Proof. solve_decision. Defined.

(** Modelled from the spec: the id [None] that stands for no node (no vote,
    no leader); node ids start at 1 in [idsBySize]. *)
Definition NoneID : Z := 0.

(** Modelled from the spec: the storage capability of section 6 as the test
    storage holds it, the voters of its snapshot metadata ([withPeers] of
    [raft2.go] writes them) and its persisted entries. *)
Module MemoryStorage.
Record t := mk {
  Voters : list Z;
  ents : list Entry.t
}.
End MemoryStorage.

(** Modelled from the spec: [NewMemoryStorage], an empty storage. *)
Definition NewMemoryStorage : MemoryStorage.t := MemoryStorage.mk [] [].

(** Modelled from the spec: [MemoryStorage.Append] keeps the entries below
    the first new index and continues with the new ones; a gap is fatal. *)
Definition MemoryStorage_Append (ms : MemoryStorage.t) (entries : list Entry.t)
    : outcome MemoryStorage.t :=
  match entries with
  | [] => Ok ms
  | e :: _ =>
      let offset := Entry.Index e - 1 in
      if bool_decide (0 <= offset <= len (MemoryStorage.ents ms))
      then Ok (MemoryStorage.mk (MemoryStorage.Voters ms)
                 (take (Z.to_nat offset) (MemoryStorage.ents ms) ++ entries))
      else Panic "missing log entry"
  end.

(** Modelled from the spec: the recognised options (section 6), as
    [newTestConfig] of [raft2.go] fills them. *)
Module Config.
Record t := mk {
  ID : Z;
  ElectionTick : Z;
  HeartbeatTick : Z;
  Storage : MemoryStorage.t;
  MaxSizePerMsg : Z;
  MaxInflightMsgs : Z;
  PreVote : bool
}.
End Config.

(** Modelled from the spec: Progress (section 3), one per peer, without the
    snapshot mode and the in-flight window. *)
Module Progress.
Inductive StateType := StateProbe | StateReplicate.
Record t := mk {
  Match : Z;
  Next : Z;
  State : StateType;
  MsgAppFlowPaused : bool
}.
End Progress.

#[global] Instance Progress_StateType_eq_dec : EqDecision Progress.StateType.
Proof. solve_decision. Defined.

(** Modelled from the spec: the log abstraction (section 4.2).  The entry
    of index [i] is at position [i - 1]; index 0 with term 0 is the base
    before the first entry. *)
Module raftLog.
Record t := mk {
  entries : list Entry.t;
  committed : Z
}.
End raftLog.

(** Modelled from the spec: a node.  [id], [Term], [state], [msgs] and
    [msgsAfterAppend] are the fields [raft2.go] reads and writes. *)
Module raft.
Record t := mk {
  id : Z;
  Term : Z;
  Vote : Z;
  state : StateType;
  lead : Z;
  preVote : bool;
  log : raftLog.t;
  voters : list Z;
  votes : gmap Z bool;
  progress : gmap Z Progress.t;
  msgs : list Message.t;
  msgsAfterAppend : list Message.t
}.

Definition set_Term (v : Z) (r : t) : t :=
  mk (id r) v (Vote r) (state r) (lead r) (preVote r) (log r) (voters r)
     (votes r) (progress r) (msgs r) (msgsAfterAppend r).
Definition set_Vote (v : Z) (r : t) : t :=
  mk (id r) (Term r) v (state r) (lead r) (preVote r) (log r) (voters r)
     (votes r) (progress r) (msgs r) (msgsAfterAppend r).
Definition set_state (v : StateType) (r : t) : t :=
  mk (id r) (Term r) (Vote r) v (lead r) (preVote r) (log r) (voters r)
     (votes r) (progress r) (msgs r) (msgsAfterAppend r).
Definition set_lead (v : Z) (r : t) : t :=
  mk (id r) (Term r) (Vote r) (state r) v (preVote r) (log r) (voters r)
     (votes r) (progress r) (msgs r) (msgsAfterAppend r).
Definition set_log (v : raftLog.t) (r : t) : t :=
  mk (id r) (Term r) (Vote r) (state r) (lead r) (preVote r) v (voters r)
     (votes r) (progress r) (msgs r) (msgsAfterAppend r).
Definition set_votes (v : gmap Z bool) (r : t) : t :=
  mk (id r) (Term r) (Vote r) (state r) (lead r) (preVote r) (log r) (voters r)
     v (progress r) (msgs r) (msgsAfterAppend r).
Definition set_progress (v : gmap Z Progress.t) (r : t) : t :=
  mk (id r) (Term r) (Vote r) (state r) (lead r) (preVote r) (log r) (voters r)
     (votes r) v (msgs r) (msgsAfterAppend r).
Definition set_msgs (v : list Message.t) (r : t) : t :=
  mk (id r) (Term r) (Vote r) (state r) (lead r) (preVote r) (log r) (voters r)
     (votes r) (progress r) v (msgsAfterAppend r).
Definition set_msgsAfterAppend (v : list Message.t) (r : t) : t :=
  mk (id r) (Term r) (Vote r) (state r) (lead r) (preVote r) (log r) (voters r)
     (votes r) (progress r) (msgs r) v.
End raft.

(** *** The log *)

(** Modelled from the spec: the last index of the log. *)
Definition lastIndex (l : raftLog.t) : Z := len (raftLog.entries l).

(** Modelled from the spec: [term(index)], an error ([None]) outside the
    log; the base index 0 has term 0. *)
Definition term (l : raftLog.t) (i : Z) : option Z :=
  if bool_decide (i = 0) then Some 0
  else if bool_decide (1 <= i <= lastIndex l)
       then Entry.Term <$> raftLog.entries l !! Z.to_nat (i - 1)
       else None.

(** Modelled from the spec: the term of the last entry. *)
Definition lastTerm (l : raftLog.t) : Z := default 0 (term l (lastIndex l)).

(** Modelled from the spec: the log comparison of vote granting, the
    requester's last (term, index) is at least the node's own. *)
Definition isUpToDate (l : raftLog.t) (candTerm candIndex : Z) : bool :=
  bool_decide (candTerm > lastTerm l)
  || (bool_decide (candTerm = lastTerm l) && bool_decide (candIndex >= lastIndex l)).

(** Modelled from the spec: whether the log holds an entry of that term at
    that index. *)
Definition matchTerm (l : raftLog.t) (i t : Z) : bool :=
  bool_decide (term l i = Some t).

(** Modelled from the spec: the first of the new entries that the log does
    not hold with the same term, if any. *)
Fixpoint findConflict (l : raftLog.t) (ents : list Entry.t) : option Entry.t :=
  match ents with
  | [] => None
  | e :: ents' =>
      if matchTerm l (Entry.Index e) (Entry.Term e) then findConflict l ents'
      else Some e
  end.

(** Modelled from the spec: [append] of section 4.2 after a matching
    previous entry: the suffix from the first mismatch on is replaced by
    the new entries; truncating at or below the commit index is fatal.
    Returns the log and the index of the last new entry. *)
Definition maybeAppend (l : raftLog.t) (index commit : Z) (ents : list Entry.t)
    : outcome (raftLog.t * Z) :=
  let lastnewi := index + len ents in
  l' ← match findConflict l ents with
       | None => Ok l
       | Some e =>
           let ci := Entry.Index e in
           if bool_decide (ci <= raftLog.committed l)
           then Panic "entry conflicts with a committed entry"
           else Ok (raftLog.mk
                      (take (Z.to_nat (ci - 1)) (raftLog.entries l)
                       ++ drop (Z.to_nat (ci - index - 1)) ents)
                      (raftLog.committed l))
       end;
  Ok (raftLog.mk (raftLog.entries l')
        (Z.max (raftLog.committed l') (Z.min commit lastnewi)), lastnewi).

(** Modelled from the spec: [maybeCommit] of section 4.2, the commit index
    is raised to [index] only if the entry stored there has the term. *)
Definition maybeCommit_log (l : raftLog.t) (index t : Z) : raftLog.t * bool :=
  if bool_decide (index > raftLog.committed l) && matchTerm l index t
  then (raftLog.mk (raftLog.entries l) index, true)
  else (l, false).

(** Modelled from the spec: the rejection hint, the follower's last index
    at or below [index] whose term is at most [t]. *)
Fixpoint findConflictByTerm (fuel : nat) (l : raftLog.t) (index t : Z) : Z :=
  match fuel with
  | O => index
  | S fuel' =>
      match term l index with
      | Some ourTerm =>
          if bool_decide (ourTerm <= t) then index
          else findConflictByTerm fuel' l (index - 1) t
      | None => index
      end
  end.

(** *** Sending *)

(** Modelled from the spec: queueing an outbound message.  The sender is
    filled in, and the node's term unless the message is of an election
    kind, which carries the term of the campaign.  The responses that
    acknowledge state the node has to make durable first (section 4.5) wait
    in [msgsAfterAppend], which [advanceMessagesAfterAppend] of [raft2.go]
    releases; the others go to [msgs]. *)
Definition send (m : Message.t) (r : raft.t) : raft.t :=
  let from := if bool_decide (Message.From m = NoneID) then raft.id r else Message.From m in
  let term :=
    match Message.Type' m with
    | MsgVote | MsgVoteResp | MsgPreVote | MsgPreVoteResp => Message.Term m
    | _ => raft.Term r
    end in
  let m := Message.mk (Message.Type' m) (Message.To m) from term (Message.LogTerm m)
             (Message.Index m) (Message.Entries m) (Message.Commit m)
             (Message.Reject m) (Message.RejectHint m) in
  match Message.Type' m with
  | MsgAppResp | MsgVoteResp | MsgPreVoteResp =>
      raft.set_msgsAfterAppend (raft.msgsAfterAppend r ++ [m]) r
  | _ => raft.set_msgs (raft.msgs r ++ [m]) r
  end.

(** *** Role transitions *)

(** Modelled from the spec: the progress every peer starts a term with,
    probing from the end of the log; the node itself matches its log. *)
Definition initProgress (r : raft.t) : gmap Z Progress.t :=
  let li := lastIndex (raft.log r) in
  list_to_map
    ((fun id => (id, Progress.mk (if bool_decide (id = raft.id r) then li else 0)
                       (li + 1) Progress.StateProbe false))
       <$> raft.voters r).

(** Modelled from the spec: [reset], invariant 1 of section 3 (the vote
    record is cleared whenever the term changes), no leader, no votes
    received, fresh progress. *)
Definition reset (term : Z) (r : raft.t) : raft.t :=
  let r := if bool_decide (raft.Term r ≠ term)
           then raft.set_Vote NoneID (raft.set_Term term r) else r in
  let r := raft.set_lead NoneID r in
  let r := raft.set_votes ∅ r in
  raft.set_progress (initProgress r) r.

(** Modelled from the spec: step down to Follower at a term. *)
Definition becomeFollower (term lead : Z) (r : raft.t) : raft.t :=
  raft.set_state StateFollower (raft.set_lead lead (reset term r)).

(** Modelled from the spec: become Candidate, which increments the term
    and votes for itself. *)
Definition becomeCandidate (r : raft.t) : outcome raft.t :=
  if bool_decide (raft.state r = StateLeader)
  then Panic "invalid transition [leader -> candidate]"
  else Ok (raft.set_state StateCandidate
             (raft.set_Vote (raft.id r) (reset (raft.Term r + 1) r))).

(** Modelled from the spec: become PreCandidate, which campaigns at
    term + 1 without committing to it: term and vote stay. *)
Definition becomePreCandidate (r : raft.t) : outcome raft.t :=
  if bool_decide (raft.state r = StateLeader)
  then Panic "invalid transition [leader -> pre-candidate]"
  else Ok (raft.set_state StatePreCandidate
             (raft.set_lead NoneID (raft.set_votes ∅ r))).

(** Modelled from the spec: a leader accepting entries gives them its term
    and the next free indexes; its own acknowledgement is a response to
    itself, due once the entries are durable. *)
Definition appendEntry (es : list Entry.t) (r : raft.t) : raft.t :=
  let li := lastIndex (raft.log r) in
  let es := imap (fun i e => Entry.mk (raft.Term r) (li + 1 + Z.of_nat i)
                               (Entry.Type' e) (Entry.Data e)) es in
  let l := raftLog.mk (raftLog.entries (raft.log r) ++ es) (raftLog.committed (raft.log r)) in
  let r := raft.set_log l r in
  send (Message.mk MsgAppResp (raft.id r) NoneID 0 0 (lastIndex l) [] 0 false 0) r.

(** Modelled from the spec: Probe to Replicate. *)
Definition BecomeReplicate (pr : Progress.t) : Progress.t :=
  Progress.mk (Progress.Match pr) (Progress.Match pr + 1) Progress.StateReplicate false.

(** Modelled from the spec: Candidate to Leader, initializing Progress for
    all peers and appending a no-op entry at the new term. *)
Definition becomeLeader (r : raft.t) : outcome raft.t :=
  if bool_decide (raft.state r = StateFollower)
  then Panic "invalid transition [follower -> leader]"
  else
    let r := reset (raft.Term r) r in
    let r := raft.set_state StateLeader (raft.set_lead (raft.id r) r) in
    let r := raft.set_progress (alter BecomeReplicate (raft.id r) (raft.progress r)) r in
    Ok (appendEntry [Entry.mk 0 0 EntryNormal []] r).

(** *** Elections *)

(** Modelled from the spec: the two rounds of an election, the non-binding
    pre-vote and the vote. *)
Inductive CampaignType := campaignPreElection | campaignElection.

(** Modelled from the spec: broadcast vote requests to all other voters
    with the node's last (term, index); the node's own vote is a response
    to itself.  The response kind is [voteRespMsgType] of the request. *)
Definition campaign (t : CampaignType) (r : raft.t) : outcome raft.t :=
  '(r, voteMsg, term) ←
    match t with
    | campaignPreElection =>
        r' ← becomePreCandidate r; Ok (r', MsgPreVote, raft.Term r' + 1)
    | campaignElection =>
        r' ← becomeCandidate r; Ok (r', MsgVote, raft.Term r')
    end;
  match voteRespMsgType voteMsg with
  | None => Panic "not a vote message"
  | Some respMsg =>
      Ok (foldl (fun r id =>
                   if bool_decide (id = raft.id r)
                   then send (Message.mk respMsg id NoneID term 0 0 [] 0 false 0) r
                   else send (Message.mk voteMsg id NoneID term
                                (lastTerm (raft.log r)) (lastIndex (raft.log r))
                                [] 0 false 0) r)
                r (SortUint64 (raft.voters r)))
  end.

(** Modelled from the spec: the local election trigger; a leader and a
    node that is not a voter ignore it. *)
Definition hup (t : CampaignType) (r : raft.t) : outcome raft.t :=
  if bool_decide (raft.state r = StateLeader) then Ok r
  else if bool_decide (raft.id r ∈ raft.voters r) then campaign t r
  else Ok r.

(** Modelled from the spec: the results of [tallyVotes]. *)
Inductive VoteResult := VotePending | VoteLost | VoteWon.

(** Modelled from the spec: [tallyVotes] of section 4.3 for one
    configuration: won once a strict majority has granted, lost once a
    majority can no longer grant. *)
Definition TallyVotes (voters : list Z) (votes : gmap Z bool) : VoteResult :=
  let granted := len (filter (fun id => votes !! id = Some true) voters) in
  let missing := len (filter (fun id => votes !! id = None) voters) in
  let q := len voters / 2 + 1 in
  if bool_decide (granted >= q) then VoteWon
  else if bool_decide (granted + missing >= q) then VotePending
  else VoteLost.

(** Modelled from the spec: record the vote of a voter (its first answer
    stands) and tally. *)
Definition poll (id : Z) (v : bool) (r : raft.t) : raft.t * VoteResult :=
  let votes := match raft.votes r !! id with
               | None => <[id := v]> (raft.votes r)
               | Some _ => raft.votes r
               end in
  (raft.set_votes votes r, TallyVotes (raft.voters r) votes).

(** *** Replication *)

(** Modelled from the spec: send the entries from [Next] on to a peer,
    unless sending to it is paused.  In Probe mode one attempt is sent and
    further sends are withheld; in Replicate mode [Next] advances
    optimistically.  [newTestConfig] sets [MaxSizePerMsg] to [noLimit], so
    the entries are never cut. *)
Definition maybeSendAppend (to : Z) (sendIfEmpty : bool) (r : raft.t) : outcome raft.t :=
  match raft.progress r !! to with
  | None => Panic "no progress for the peer"
  | Some pr =>
      if Progress.MsgAppFlowPaused pr then Ok r
      else
        let prevIndex := Progress.Next pr - 1 in
        match term (raft.log r) prevIndex with
        | None => Unmodelled "the peer needs a snapshot"
        | Some prevTerm =>
            let ents := drop (Z.to_nat prevIndex) (raftLog.entries (raft.log r)) in
            if bool_decide (ents = []) && negb sendIfEmpty then Ok r
            else
              let r := send (Message.mk MsgApp to NoneID 0 prevTerm prevIndex ents
                               (raftLog.committed (raft.log r)) false 0) r in
              let pr :=
                match Progress.State pr with
                | Progress.StateReplicate =>
                    Progress.mk (Progress.Match pr) (Progress.Next pr + len ents)
                      Progress.StateReplicate false
                | Progress.StateProbe =>
                    Progress.mk (Progress.Match pr) (Progress.Next pr)
                      Progress.StateProbe true
                end in
              Ok (raft.set_progress (<[to := pr]> (raft.progress r)) r)
        end
  end.

(** Modelled from the spec: an append that is sent even when it carries no
    entry, to pass the commit index on. *)
Definition sendAppend (to : Z) (r : raft.t) : outcome raft.t :=
  maybeSendAppend to true r.

(** Modelled from the spec: the append fan-out to every other voter. *)
Definition bcastAppend (r : raft.t) : outcome raft.t :=
  foldl (fun (acc : outcome raft.t) id =>
           r ← acc;
           if bool_decide (id = raft.id r) then Ok r else sendAppend id r)
        (Ok r) (SortUint64 (raft.voters r)).

(** Modelled from the spec: [committedIndex] of section 4.3 for one
    configuration, the highest index acknowledged by a majority. *)
Definition committedIndex (voters : list Z) (prs : gmap Z Progress.t) : Z :=
  let matched := SortUint64 ((fun id => default 0 (Progress.Match <$> prs !! id)) <$> voters) in
  let q := len voters / 2 + 1 in
  default 0 (matched !! Z.to_nat (len voters - q)).

(** Modelled from the spec: commit advancement of the leader (rule 6 of
    section 3): the quorum-acknowledged index, if its entry carries the
    leader's current term. *)
Definition maybeCommit (r : raft.t) : raft.t * bool :=
  let '(l, ok) := maybeCommit_log (raft.log r)
                    (committedIndex (raft.voters r) (raft.progress r)) (raft.Term r) in
  (raft.set_log l r, ok).

(** Modelled from the spec: append handling of section 4.1. *)
Definition handleAppendEntries (m : Message.t) (r : raft.t) : outcome raft.t :=
  let l := raft.log r in
  if matchTerm l (Message.Index m) (Message.LogTerm m) then
    '(l', lastnewi) ← maybeAppend l (Message.Index m) (Message.Commit m) (Message.Entries m);
    Ok (send (Message.mk MsgAppResp (Message.From m) NoneID 0 0 lastnewi [] 0 false 0)
             (raft.set_log l' r))
  else
    let hintIndex := Z.min (Message.Index m) (lastIndex l) in
    let hintIndex := findConflictByTerm (Z.to_nat hintIndex) l hintIndex (Message.LogTerm m) in
    Ok (send (Message.mk MsgAppResp (Message.From m) NoneID 0 0 (Message.Index m) [] 0
                true hintIndex) r).

(** Modelled from the spec: the leader on an acknowledgement or a
    rejection of an append (sections 4.1 and 4.4). *)
Definition handleAppendResp (m : Message.t) (r : raft.t) : outcome raft.t :=
  match raft.progress r !! Message.From m with
  | None => Ok r
  | Some pr =>
      if Message.Reject m then
        let stale :=
          match Progress.State pr with
          | Progress.StateReplicate => bool_decide (Message.Index m <= Progress.Match pr)
          | Progress.StateProbe => bool_decide (Progress.Next pr - 1 ≠ Message.Index m)
          end in
        if stale then Ok r
        else
          let next := Z.max (Z.min (Message.Index m) (Message.RejectHint m + 1))
                        (Progress.Match pr + 1) in
          let pr := Progress.mk (Progress.Match pr) next Progress.StateProbe false in
          sendAppend (Message.From m)
            (raft.set_progress (<[Message.From m := pr]> (raft.progress r)) r)
      else
        let oldPaused := Progress.MsgAppFlowPaused pr in
        let updated := bool_decide (Progress.Match pr < Message.Index m) in
        let pr := if updated
                  then Progress.mk (Message.Index m)
                         (Z.max (Progress.Next pr) (Message.Index m + 1))
                         (Progress.State pr) false
                  else pr in
        if updated || (bool_decide (Progress.Match pr = Message.Index m)
                       && bool_decide (Progress.State pr = Progress.StateProbe))
        then
          let pr := match Progress.State pr with
                    | Progress.StateProbe => BecomeReplicate pr
                    | Progress.StateReplicate => pr
                    end in
          let r := raft.set_progress (<[Message.From m := pr]> (raft.progress r)) r in
          let '(r, advanced) := maybeCommit r in
          if advanced then bcastAppend r
          else if oldPaused then sendAppend (Message.From m) r
          else Ok r
        else Ok r
  end.

(** *** Stepping a message *)

(** Modelled from the spec: a Follower on a message of its term. *)
Definition stepFollower (m : Message.t) (r : raft.t) : outcome raft.t :=
  match Message.Type' m with
  | MsgApp => handleAppendEntries m (raft.set_lead (Message.From m) r)
  | MsgAppResp | MsgVoteResp | MsgPreVoteResp => Ok r
  | _ => Unmodelled "message kind at a follower"
  end.

(** Modelled from the spec: a Candidate or PreCandidate on a message of its
    campaign.  A quorum of grants turns a PreCandidate into a Candidate
    with an immediate real campaign and a Candidate into the Leader, which
    fans out its no-op entry; a quorum of rejections reverts to Follower,
    keeping the term. *)
Definition stepCandidate (m : Message.t) (r : raft.t) : outcome raft.t :=
  let myVoteRespType :=
    if bool_decide (raft.state r = StatePreCandidate) then MsgPreVoteResp else MsgVoteResp in
  match Message.Type' m with
  | MsgApp =>
      handleAppendEntries m (becomeFollower (Message.Term m) (Message.From m) r)
  | MsgVoteResp | MsgPreVoteResp =>
      if bool_decide (Message.Type' m = myVoteRespType) then
        let '(r, res) := poll (Message.From m) (negb (Message.Reject m)) r in
        match res with
        | VoteWon =>
            if bool_decide (raft.state r = StatePreCandidate)
            then campaign campaignElection r
            else r' ← becomeLeader r; bcastAppend r'
        | VoteLost => Ok (becomeFollower (raft.Term r) NoneID r)
        | VotePending => Ok r
        end
      else Ok r
  | MsgAppResp => Ok r
  | _ => Unmodelled "message kind at a candidate"
  end.

(** Modelled from the spec: the Leader on a message of its term. *)
Definition stepLeader (m : Message.t) (r : raft.t) : outcome raft.t :=
  match Message.Type' m with
  | MsgAppResp => handleAppendResp m r
  | MsgVoteResp | MsgPreVoteResp => Ok r
  | _ => Unmodelled "message kind at a leader"
  end.

(** Modelled from the spec: vote granting (sections 4.1 and 8).  The vote is
    granted iff the requester's log is at least as up to date as the
    node's and the node has not voted for a different candidate in this
    term; a pre-vote commits no vote.  A grant answers at the term of the
    request, a rejection at the node's own term.  Check-quorum is off in
    the configurations of [newTestConfig]. *)
Definition handleVote (m : Message.t) (r : raft.t) : outcome raft.t :=
  let canVote :=
    bool_decide (raft.Vote r = Message.From m)
    || bool_decide (raft.Vote r = NoneID)
    || bool_decide (Message.Type' m = MsgPreVote) in
  match voteRespMsgType (Message.Type' m) with
  | None => Panic "not a vote message"
  | Some respMsg =>
      if canVote && isUpToDate (raft.log r) (Message.LogTerm m) (Message.Index m) then
        let r := send (Message.mk respMsg (Message.From m) NoneID (Message.Term m)
                         0 0 [] 0 false 0) r in
        Ok (if bool_decide (Message.Type' m = MsgVote)
            then raft.set_Vote (Message.From m) r else r)
      else
        Ok (send (Message.mk respMsg (Message.From m) NoneID (raft.Term r)
                    0 0 [] 0 true 0) r)
  end.

(** Modelled from the spec: the handling of a message whose term has been
    dealt with: the election trigger, a vote request, or the role's own
    handler. *)
Definition dispatch (m : Message.t) (r : raft.t) : outcome raft.t :=
  match Message.Type' m with
  | MsgHup => hup (if raft.preVote r then campaignPreElection else campaignElection) r
  | MsgVote | MsgPreVote => handleVote m r
  | _ =>
      match raft.state r with
      | StateFollower => stepFollower m r
      | StateCandidate | StatePreCandidate => stepCandidate m r
      | StateLeader => stepLeader m r
      end
  end.

(** Modelled from the spec: [Step].  A message of term 0 is local.  A
    strictly higher term makes the node a Follower at that term, with the
    sender as leader when the kind is an append, except for the kinds that
    do not advance the term: a pre-vote request, and a granted pre-vote,
    which carries the term of the campaign.  A message of a lower term is
    dropped, a stale pre-vote request being answered by a rejection. *)
Definition Step (m : Message.t) (r : raft.t) : outcome raft.t :=
  if bool_decide (Message.Term m = 0) then dispatch m r
  else if bool_decide (Message.Term m > raft.Term r) then
    match Message.Type' m with
    | MsgPreVote => dispatch m r
    | MsgPreVoteResp =>
        if Message.Reject m then dispatch m (becomeFollower (Message.Term m) NoneID r)
        else dispatch m r
    | MsgApp => dispatch m (becomeFollower (Message.Term m) (Message.From m) r)
    | _ => dispatch m (becomeFollower (Message.Term m) NoneID r)
    end
  else if bool_decide (Message.Term m < raft.Term r) then
    match Message.Type' m with
    | MsgPreVote =>
        Ok (send (Message.mk MsgPreVoteResp (Message.From m) NoneID (raft.Term r)
                    0 0 [] 0 true 0) r)
    | _ => Ok r
    end
  else dispatch m r.

(** Modelled from the spec: [newRaft].  The initial role is Follower; term,
    vote and commit index come from the hard state of the storage, which
    is empty in the test storage; the voters come from its snapshot
    metadata and the log from its entries. *)
Definition newRaft (c : Config.t) : raft.t :=
  let r := raft.mk (Config.ID c) 0 NoneID StateFollower NoneID (Config.PreVote c)
             (raftLog.mk (MemoryStorage.ents (Config.Storage c)) 0)
             (MemoryStorage.Voters (Config.Storage c)) ∅ ∅ [] [] in
  becomeFollower (raft.Term r) NoneID r.

(** ** The test network of [raft2.go] *)

(** [noLimit] is [math.MaxUint64]. *)
Definition noLimit : Z := 2 ^ 64 - 1.

Definition newTestConfig (id election heartbeat : Z) (storage : MemoryStorage.t) : Config.t :=
  Config.mk id election heartbeat storage noLimit 256 false.

(** A configuration function acts on the configuration it is given a
    pointer to; [None] is [nil]. *)
Definition configFunc : Type := option (Config.t -> Config.t).

Definition applyConfigFunc (f : configFunc) (c : Config.t) : Config.t :=
  match f with
  | Some g => g c
  | None => c
  end.

Definition preVoteConfig : Config.t -> Config.t := fun c =>
  Config.mk (Config.ID c) (Config.ElectionTick c) (Config.HeartbeatTick c)
    (Config.Storage c) (Config.MaxSizePerMsg c) (Config.MaxInflightMsgs c) true.

(** The loop of [entsWithConfig] over [terms]. *)
Fixpoint entsWithConfig_storage (storage : MemoryStorage.t) (i : Z) (terms : list Z)
    : outcome MemoryStorage.t :=
  match terms with
  | [] => Ok storage
  | t :: terms' =>
      storage' ← MemoryStorage_Append storage [Entry.mk t (i + 1) EntryNormal []];
      entsWithConfig_storage storage' (i + 1) terms'
  end.

(** [entsWithConfig]: the node has the id 1 of [newTestConfig(1, 5, 1, _)]
    and the voters of a fresh storage, none. *)
Definition entsWithConfig (f : configFunc) (terms : list Z) : outcome raft.t :=
  storage ← entsWithConfig_storage NewMemoryStorage 0 terms;
  let cfg := applyConfigFunc f (newTestConfig 1 5 1 storage) in
  let sm := newRaft cfg in
  match last terms with
  | None => Panic "index out of range [-1]"
  | Some t => Ok (reset t sm)
  end.

(** The interface [stateMachine] and its two implementations, a node and
    the [blackHole]. *)
Inductive stateMachine :=
| raftSM (r : raft.t)
| blackHoleSM.

Definition idsBySize (size : nat) : list Z :=
  (fun i : nat => 1 + Z.of_nat i) <$> seq 0 size.

Definition withPeers (peers : list Z) : MemoryStorage.t -> MemoryStorage.t := fun ms =>
  MemoryStorage.mk peers (MemoryStorage.ents ms).

Definition newTestMemoryStorage (opts : list (MemoryStorage.t -> MemoryStorage.t))
    : MemoryStorage.t :=
  foldl (fun ms o => o ms) NewMemoryStorage opts.


(** [takeMessagesAfterAppend]. *)
Definition takeMessagesAfterAppend (r : raft.t) : list Message.t * raft.t :=
  (raft.msgsAfterAppend r, raft.set_msgsAfterAppend [] r).

(** [stepOrSend].  [Step] returns no error in the fragment modelled, so
    the early return on an error is never taken. *)
Fixpoint stepOrSend (msgs : list Message.t) (r : raft.t) : outcome raft.t :=
  match msgs with
  | [] => Ok r
  | m :: msgs' =>
      r' ← (if bool_decide (Message.To m = raft.id r) then Step m r
            else Ok (raft.set_msgs (raft.msgs r ++ [m]) r));
      stepOrSend msgs' r'
  end.

(** [advanceMessagesAfterAppend]; [fuel] bounds the iterations of its
    loop. *)
Fixpoint advanceMessagesAfterAppend (fuel : nat) (r : raft.t) : outcome raft.t :=
  match fuel with
  | O => OutOfFuel
  | S fuel' =>
      let '(msgs, r) := takeMessagesAfterAppend r in
      if bool_decide (len msgs = 0) then Ok r
      else r' ← stepOrSend msgs r; advanceMessagesAfterAppend fuel' r'
  end.

(** [readMessages]. *)
Definition readMessages (fuel : nat) (r : raft.t) : outcome (list Message.t * raft.t) :=
  r ← advanceMessagesAfterAppend fuel r;
  Ok (raft.msgs r, raft.set_msgs [] r).

(** The three methods of the interface. *)
Definition sm_Step (m : Message.t) (p : stateMachine) : outcome stateMachine :=
  match p with
  | raftSM r => r' ← Step m r; Ok (raftSM r')
  | blackHoleSM => Ok blackHoleSM
  end.

Definition sm_advanceMessagesAfterAppend (fuel : nat) (p : stateMachine)
    : outcome stateMachine :=
  match p with
  | raftSM r => r' ← advanceMessagesAfterAppend fuel r; Ok (raftSM r')
  | blackHoleSM => Ok blackHoleSM
  end.

Definition sm_readMessages (fuel : nat) (p : stateMachine)
    : outcome (list Message.t * stateMachine) :=
  match p with
  | raftSM r => '(msgs, r') ← readMessages fuel r; Ok (msgs, raftSM r')
  | blackHoleSM => Ok ([], blackHoleSM)
  end.

#[global] Instance MessageType_countable : Countable MessageType.
Proof.
  refine (inj_countable' (fun k => Z.to_nat (raftpb_ord k))
            (fun n => default MsgHup (allMessageTypes !! n)) _).
  intros k. destruct k; reflexivity.
Defined.

Module network.
Record t := mk {
  peers : gmap Z stateMachine;
  storage : gmap Z MemoryStorage.t;
  dropm64 : gmap (Z * Z) Z;
  ignorem : gmap MessageType bool;
  msgHook : option (Message.t -> bool)
}.
Definition set_peers (v : gmap Z stateMachine) (nw : t) : t :=
  mk v (storage nw) (dropm64 nw) (ignorem nw) (msgHook nw).

(** [filter].  [rand.Uint64()] is drawn from [rng]; [pos] counts the
    draws.  The kinds in [ignorem] are dropped, [MsgHup] panics, and a
    message is dropped when the draw is below the percentage of its
    connection, zero when the connection has none. *)
Fixpoint filter (rng : nat -> Z) (pos : nat) (nw : t) (msgs : list Message.t)
    : outcome (list Message.t * nat) :=
  match msgs with
  | [] => Ok ([], pos)
  | m :: msgs' =>
      if default false (ignorem nw !! Message.Type' m)
      then filter rng pos nw msgs'
      else
        match Message.Type' m with
        | MsgHup => Panic "unexpected msgHup"
        | _ =>
            let perc64 :=
              default 0 (dropm64 nw !! (Message.From m, Message.To m)) in
            let n := u64 (rng pos) in
            if n <? perc64 then filter rng (S pos) nw msgs'
            else
              let keep := match msgHook nw with
                          | Some hook => hook m
                          | None => true
                          end in
              '(mm, pos') ← filter rng (S pos) nw msgs';
              Ok (if keep then m :: mm else mm, pos')
        end
  end.

(** [send]: the queue of messages is processed until it is empty;
    [fuel] bounds the iterations.  The second component of the result is
    the sequence of the messages delivered, in order (what the optional
    [t.Log] describes). *)
Fixpoint send_loop (rng : nat -> Z) (pos : nat) (fuel : nat) (nw : t)
    (msgs : list Message.t) (delivered : list Message.t)
    : outcome (t * list Message.t) :=
  match msgs with
  | [] => Ok (nw, delivered)
  | m :: msgs' =>
      match fuel with
      | O => OutOfFuel
      | S fuel' =>
          match peers nw !! Message.To m with
          | None => Panic "nil pointer dereference"
          | Some p =>
              p ← sm_Step m p;
              p ← sm_advanceMessagesAfterAppend fuel p;
              '(out, p) ← sm_readMessages fuel p;
              let nw := set_peers (<[Message.To m := p]> (peers nw)) nw in
              '(out, pos') ← filter rng pos nw out;
              send_loop rng pos' fuel' nw (msgs' ++ out) (delivered ++ [m])
          end
      end
  end.

Definition send (rng : nat -> Z) (fuel : nat) (nw : t)
    (msgs : list Message.t) : outcome (t * list Message.t) :=
  send_loop rng 0 fuel nw msgs [].
End network.

(** [newNetworkWithConfigInit]; a [nil] peer is [None]. *)
Definition newNetworkWithConfigInit (f : configFunc) (peers : list (option stateMachine))
    : network.t :=
  let size := length peers in
  let peerAddrs := idsBySize size in
  let '(npeers, nstorage) :=
    foldl (fun '(npeers, nstorage) '(id, p) =>
             match p with
             | None =>
                 let st := newTestMemoryStorage [withPeers peerAddrs] in
                 let cfg := applyConfigFunc f (newTestConfig id 10 1 st) in
                 (<[id := raftSM (newRaft cfg)]> npeers, <[id := st]> nstorage)
             | Some p => (<[id := p]> npeers, nstorage)
             end)
          (∅, ∅) (zip peerAddrs peers) in
  network.mk npeers nstorage ∅ ∅ None.

(** The node behind an address, as the test reads [tt.network.peers[1]]. *)
Definition peer (nw : network.t) (id : Z) : option raft.t :=
  match network.peers nw !! id with
  | Some (raftSM r) => Some r
  | _ => None
  end.

(** ** Reading the result of a run *)

(** The role and the term of the node behind an address after a run. *)
Definition role_and_term (o : outcome (network.t * list Message.t)) (id : Z)
    : option (StateType * Z) :=
  match o with
  | Ok (nw, _) => (fun r => (raft.state r, raft.Term r)) <$> peer nw id
  | _ => None
  end.

(** Whether a rejecting vote response from [from] to [to] is among the
    messages delivered. *)
Definition rejected_by (delivered : list Message.t) (from to : Z) : bool :=
  existsb (fun m =>
             bool_decide (Message.From m = from) && bool_decide (Message.To m = to)
             && Message.Reject m
             && bool_decide (Message.Type' m ∈ [MsgVoteResp; MsgPreVoteResp]))
          delivered.

(** The rejections delivered in a run. *)
Definition rejections (o : outcome (network.t * list Message.t)) (to : Z) (froms : list Z)
    : bool :=
  match o with
  | Ok (_, delivered) => forallb (fun from => rejected_by delivered from to) froms
  | _ => false
  end.

(** The nodes of a network of the scenarios: [nil] for a fresh node, the
    black hole, and a member holding entries of the given terms. *)
Definition bh : option stateMachine := Some blackHoleSM.


(** The peers [entsWithConfig] gives, as the test passes them. *)
Definition rawEntries (f : configFunc) (terms : list Z) : option stateMachine :=
  match entsWithConfig f terms with
  | Ok r => Some (raftSM r)
  | _ => None
  end.

(** The local election trigger of the test. *)
Definition hupMsg : Message.t := msg MsgHup 1 1.

(** ** [testLeaderElection2] *)

(** The table of the test: the networks with the role and the term
    expected of node 1. *)
Definition testLeaderElection2_tests (preVote : bool)
    : list (network.t * StateType * Z) :=
  let cfg : configFunc := if preVote then Some preVoteConfig else None in
  let candState := if preVote then StatePreCandidate else StateCandidate in
  let candTerm := if preVote then 0 else 1 in
  [ (newNetworkWithConfigInit cfg [None; None; None], StateLeader, 1);
    (newNetworkWithConfigInit cfg [None; None; bh], StateLeader, 1);
    (newNetworkWithConfigInit cfg [None; bh; bh], candState, candTerm);
    (newNetworkWithConfigInit cfg [None; bh; bh; None], candState, candTerm);
    (newNetworkWithConfigInit cfg [None; bh; bh; None; None], StateLeader, 1);
    (newNetworkWithConfigInit cfg
       [None; rawEntries cfg [1]; rawEntries cfg [1]; rawEntries cfg [1; 1]; None],
     StateFollower, 1) ].

(** The loop of the test: for each network, whether the two assertions
    hold after the trigger has been sent. *)
Definition testLeaderElection2 (rng : nat -> Z) (fuel : nat) (preVote : bool) : list bool :=
  (fun '(nw, state, expTerm) =>
     bool_decide (role_and_term (network.send rng fuel nw [hupMsg]) 1
                  = Some (state, expTerm)))
    <$> testLeaderElection2_tests preVote.

(** ** Steps and the term *)



(** ** Describing targets *)

(** [fmt.Sprintf("%x", id)] for a [uint64]: the digits of the id in base
    16, in lower case, without a prefix. *)
Definition sprintf_x (id : Z) : string :=
  match id with
  | Zpos p => HexString.Raw.of_pos p EmptyString
  | _ => "0"
  end.

Section Targets.

(** The ids [None], [LocalAppendThread] and [LocalApplyThread] are
    constants of [raft.go], which is not part of the sources at hand; they
    are parameters. *)
Variable None' LocalAppendThread LocalApplyThread : Z.

(** [IsLocalMsgTarget]. *)
Definition IsLocalMsgTarget (id : Z) : bool :=
  bool_decide (id = LocalAppendThread) || bool_decide (id = LocalApplyThread).

(** [describeTarget]: the cases of the [switch] are tried in order. *)
Definition describeTarget (id : Z) : string :=
  if bool_decide (id = None') then "None"
  else if bool_decide (id = LocalAppendThread) then "AppendThread"
  else if bool_decide (id = LocalApplyThread) then "ApplyThread"
  else sprintf_x id.

End Targets.

(** ** Networks and nodes for the examples *)

(** A network without peers that ignores the appends. *)
Definition ignoringApp : network.t :=
  network.mk ∅ ∅ ∅ (<[MsgApp := true]> ∅) None.

(** A follower with the id 1, in a cluster of three, whose answers to the
    nodes 2 and 3 wait for the append. *)
Definition waitingFollower : raft.t :=
  raft.mk 1 1 0 StateFollower 0 false (raftLog.mk [] 0) [1; 2; 3] ∅ ∅
    [msg MsgApp 1 2] [msg MsgVoteResp 1 2; msg MsgAppResp 1 3].

(** ** Reading a network *)

(** The state machine [newNetworkWithConfigInit] registers at an address:
    the peer itself when one is given, and for a [nil] peer a new node over
    a storage whose voters are the addresses of the network. *)
Definition registered (f : configFunc) (addrs : list Z) (id : Z)
    (p : option stateMachine) : stateMachine :=
  match p with
  | None =>
      raftSM (newRaft (applyConfigFunc f
                         (newTestConfig id 10 1 (newTestMemoryStorage [withPeers addrs]))))
  | Some p => p
  end.

(** The two implementations of [stateMachine] stay what they are. *)
Definition same_kind (p p' : stateMachine) : Prop :=
  p = blackHoleSM <-> p' = blackHoleSM.

(** What a run leaves as it is. *)
Definition same_wiring (nw nw' : network.t) : Prop :=
  network.storage nw' = network.storage nw /\
  network.dropm64 nw' = network.dropm64 nw /\
  network.ignorem nw' = network.ignorem nw /\
  network.msgHook nw' = network.msgHook nw /\
  dom (network.peers nw') = dom (network.peers nw) /\
  (forall id, network.peers nw' !! id = Some blackHoleSM <->
              network.peers nw !! id = Some blackHoleSM).

(** The body of the loop of [newNetworkWithConfigInit]. *)
Definition registerPeer (f : configFunc) (addrs : list Z)
    : gmap Z stateMachine * gmap Z MemoryStorage.t -> Z * option stateMachine ->
      gmap Z stateMachine * gmap Z MemoryStorage.t :=
  fun '(npeers, nstorage) '(id, p) =>
    match p with
    | None =>
        let st := newTestMemoryStorage [withPeers addrs] in
        let cfg := applyConfigFunc f (newTestConfig id 10 1 st) in
        (<[id := raftSM (newRaft cfg)]> npeers, <[id := st]> nstorage)
    | Some p => (<[id := p]> npeers, nstorage)
    end.

(** * Properties of the utilities *)

(** ** Machine integers *)

Lemma u64_i64 (z : Z) : u64 (i64 z) = u64 z.
Proof.
  unfold u64, i64.
  rewrite Zminus_mod, Zmod_mod, <- Zminus_mod.
  replace (z + 2 ^ 63 - 2 ^ 63) with z by lia. reflexivity.
Qed.

Lemma u64_add_l (a b : Z) : u64 (u64 a + b) = u64 (a + b).
Proof. unfold u64. apply Zplus_mod_idemp_l. Qed.

Lemma u64_add_r (a b : Z) : u64 (a + u64 b) = u64 (a + b).
Proof. unfold u64. apply Zplus_mod_idemp_r. Qed.

Lemma u64_idem (z : Z) : u64 (u64 z) = u64 z.
Proof. unfold u64. apply Zmod_mod. Qed.

Lemma u64_small (z : Z) : 0 <= z < 2 ^ 64 -> u64 z = z.
Proof. unfold u64. apply Z.mod_small. Qed.

Lemma u64_range (z : Z) : 0 <= u64 z < 2 ^ 64.
Proof. unfold u64. apply Z.mod_pos_bound. lia. Qed.

(** ** [limitSize] *)

Section LimitSize.

Variable Size : Entry.t -> Z.

Lemma entsSize_snoc (pre : list Entry.t) (e : Entry.t) :
  entsSize Size (pre ++ [e]) = u64 (entsSize Size pre + Size e).
Proof.
  unfold entsSize. rewrite fold_left_app. simpl. apply u64_add_r.
Qed.

Lemma entsSize_u64 (ents : list Entry.t) : u64 (entsSize Size ents) = entsSize Size ents.
Proof.
  destruct ents as [|e ents] using rev_ind; [reflexivity|].
  rewrite entsSize_snoc. apply u64_idem.
Qed.

(** The invariant of the loop: [pre] is [ents[:limit]], [size] is its
    encoded size up to wrap-around, and a prefix of two entries or more is
    within the cap. *)
Lemma limitSize_loop_spec (ents : list Entry.t) (maxSize : Z) :
  forall (rest pre : list Entry.t) (size : Z),
    ents = pre ++ rest ->
    pre <> [] ->
    u64 size = entsSize Size pre ->
    ((1 < length pre)%nat -> entsSize Size pre <= maxSize) ->
    let p := limitSize_loop Size ents maxSize size (length pre) rest in
    p <> [] /\ p `prefix_of` ents /\
    (entsSize Size p <= maxSize \/ length p = 1%nat).
Proof.
  induction rest as [|e rest IH]; intros pre size Hents Hne Hsize Hcap; simpl.
  - rewrite app_nil_r in Hents. subst ents.
    split; [assumption|]. split; [reflexivity|].
    destruct pre as [|a [|b pre]]; [congruence|right; reflexivity|].
    left. apply Hcap. simpl. lia.
  - assert (Hnew : u64 (i64 (size + i64 (Size e))) = entsSize Size (pre ++ [e])).
    { rewrite u64_i64, <- u64_add_r, u64_i64, u64_add_r.
      rewrite entsSize_snoc, <- Hsize. symmetry. apply u64_add_l. }
    destruct (Z.gtb_spec (u64 (i64 (size + i64 (Size e)))) maxSize) as [Hgt|Hle].
    + subst ents. rewrite take_app_length.
      split; [assumption|]. split; [eexists; reflexivity|].
      destruct pre as [|a [|b pre]]; [congruence|right; reflexivity|].
      left. apply Hcap. simpl. lia.
    + specialize (IH (pre ++ [e]) (i64 (size + i64 (Size e)))).
      rewrite length_app in IH. simpl in IH.
      replace (length pre + 1)%nat with (S (length pre)) in IH by lia.
      apply IH.
      * rewrite <- app_assoc. exact Hents.
      * destruct pre; discriminate.
      * exact Hnew.
      * intros _. rewrite <- Hnew. exact Hle.
Qed.

Lemma limitSize_spec (ents : list Entry.t) (maxSize : Z) :
  ents <> [] ->
  let p := limitSize Size ents maxSize in
  p <> [] /\ p `prefix_of` ents /\ (entsSize Size p <= maxSize \/ p = take 1 ents).
Proof.
  intros Hne. destruct ents as [|e0 rest]; [congruence|].
  pose proof (limitSize_loop_spec (e0 :: rest) maxSize rest [e0] (i64 (Size e0))) as H.
  simpl in H. specialize (H eq_refl).
  destruct H as (Hp & Hpre & Hsz).
  - discriminate.
  - rewrite u64_i64. unfold entsSize. simpl. rewrite u64_add_r. reflexivity.
  - lia.
  - unfold limitSize. split; [exact Hp|]. split; [exact Hpre|].
    destruct Hsz as [Hsz|Hlen]; [left; exact Hsz|right].
    destruct Hpre as [k Hk].
    destruct (limitSize_loop Size (e0 :: rest) maxSize (i64 (Size e0)) 1 rest)
      as [|a [|b p]] eqn:Hl; simpl in Hlen; try discriminate.
    simpl in Hk. injection Hk as -> _. reflexivity.
Qed.

End LimitSize.

(** C1.  For a non-empty list of entries and any cap, [limitSize] returns a
    non-empty prefix of the list whose encoded size is within the cap
    unless it is the first entry alone.  Three entries of size 5 under the
    cap 12 give the first two entries; sizes 20, 5, 5 under the cap 12 give
    the first entry alone. *)
Theorem limitSize_nonempty_prefix_within_cap
    (Size : Entry.t -> Z) (ents : list Entry.t) (maxSize : Z) :
  ents <> [] ->
  (limitSize Size ents maxSize <> [] /\
   limitSize Size ents maxSize `prefix_of` ents /\
   (entsSize Size (limitSize Size ents maxSize) <= maxSize \/
    limitSize Size ents maxSize = take 1 ents)) /\
  (forall e1 e2 e3 : Entry.t,
     Size e1 = 5 -> Size e2 = 5 -> Size e3 = 5 ->
     limitSize Size [e1; e2; e3] 12 = [e1; e2]) /\
  (forall e1 e2 e3 : Entry.t,
     Size e1 = 20 -> Size e2 = 5 -> Size e3 = 5 ->
     limitSize Size [e1; e2; e3] 12 = [e1]).
Proof.
  intros Hne. split; [apply limitSize_spec; exact Hne|].
  split; intros e1 e2 e3 H1 H2 H3; unfold limitSize; simpl;
    rewrite H1, H2, ?H3; reflexivity.
Qed.

(** An instance: the encoded size of an entry taken to be five bytes of
    header and its payload. *)
Lemma limitSize_nonempty_prefix_within_cap_witness :
  let Size := fun e : Entry.t => 5 + len (Entry.Data e) in
  let e := Entry.mk 1 1 EntryNormal [] in
  [e; e; e] <> [] /\
  limitSize Size [e; e; e] 12 = [e; e].
Proof.
  intros Size e. split; [discriminate|].
  apply (limitSize_nonempty_prefix_within_cap Size [e; e; e] 12); [discriminate| | |];
    reflexivity.
Defined.

(** The source comment calls the result the longest such prefix: when
    [limitSize] stops early, one more entry would exceed the cap. *)
Lemma limitSize_loop_longest (Size : Entry.t -> Z) (ents : list Entry.t) (maxSize : Z) :
  forall (rest pre : list Entry.t) (size : Z),
    ents = pre ++ rest ->
    u64 size = entsSize Size pre ->
    let p := limitSize_loop Size ents maxSize size (length pre) rest in
    p = ents \/ exists e k, ents = p ++ e :: k /\ maxSize < entsSize Size (p ++ [e]).
Proof.
  induction rest as [|e rest IH]; intros pre size Hents Hsize; simpl.
  - left; reflexivity.
  - assert (Hnew : u64 (i64 (size + i64 (Size e))) = entsSize Size (pre ++ [e])).
    { rewrite u64_i64, <- u64_add_r, u64_i64, u64_add_r.
      rewrite entsSize_snoc, <- Hsize. symmetry. apply u64_add_l. }
    destruct (Z.gtb_spec (u64 (i64 (size + i64 (Size e)))) maxSize) as [Hgt|Hle].
    + right. exists e, rest. subst ents. rewrite take_app_length.
      split; [reflexivity|]. rewrite <- Hnew. lia.
    + specialize (IH (pre ++ [e]) (i64 (size + i64 (Size e)))).
      rewrite length_app in IH. simpl in IH.
      replace (length pre + 1)%nat with (S (length pre)) in IH by lia.
      apply IH; [rewrite <- app_assoc; exact Hents|exact Hnew].
Qed.

(** ** Payload sizes *)

Lemma payloadsSize_snoc (a : list Entry.t) (e : Entry.t) :
  payloadsSize (a ++ [e]) = u64 (payloadsSize a + payloadSize e).
Proof. unfold payloadsSize. rewrite fold_left_app. reflexivity. Qed.

Lemma payloadsSize_u64 (a : list Entry.t) : u64 (payloadsSize a) = payloadsSize a.
Proof.
  destruct a as [|e a] using rev_ind; [reflexivity|].
  rewrite payloadsSize_snoc. apply u64_idem.
Qed.

Lemma payloadsSize_range (a : list Entry.t) : 0 <= payloadsSize a < 2 ^ 64.
Proof. rewrite <- payloadsSize_u64. apply u64_range. Qed.

Lemma payloadsSize_app (a b : list Entry.t) :
  payloadsSize (a ++ b) = u64 (payloadsSize a + payloadsSize b).
Proof.
  induction b as [|e b IH] using rev_ind.
  - rewrite app_nil_r. change (payloadsSize []) with 0.
    rewrite Z.add_0_r. symmetry. apply payloadsSize_u64.
  - rewrite app_assoc, !payloadsSize_snoc, IH.
    rewrite u64_add_l, u64_add_r. f_equal. lia.
Qed.

(** C10.  Payload accounting is additive, with the addition of
    [entryPayloadSize] (a [uint64]), which is the plain sum whenever that
    fits; [payloadSize] depends on the [Data] field only, and is zero for
    an empty payload. *)
Theorem payload_accounting (a b : list Entry.t) :
  payloadsSize (a ++ b) = u64 (payloadsSize a + payloadsSize b) /\
  (payloadsSize a + payloadsSize b < 2 ^ 64 ->
   payloadsSize (a ++ b) = payloadsSize a + payloadsSize b) /\
  (forall e e' : Entry.t, Entry.Data e = Entry.Data e' -> payloadSize e = payloadSize e') /\
  (forall (term index term' index' : Z) (ty : EntryType) (data : list Byte.byte),
     payloadSize (Entry.mk term index ty data) = payloadSize (Entry.mk term' index' ty data)) /\
  (forall e : Entry.t, Entry.Data e = [] -> payloadSize e = 0).
Proof.
  split; [apply payloadsSize_app|]. split; [|split; [|split]].
  - intros Hfit. rewrite payloadsSize_app. apply u64_small.
    pose proof (payloadsSize_range a). pose proof (payloadsSize_range b). lia.
  - intros e e' H. unfold payloadSize. rewrite H. reflexivity.
  - reflexivity.
  - intros e H. unfold payloadSize. rewrite H. reflexivity.
Qed.

Lemma payload_accounting_witness :
  let a := [Entry.mk 1 1 EntryNormal [Byte.x61; Byte.x62]] in
  let b := [Entry.mk 1 2 EntryNormal []; Entry.mk 2 3 EntryNormal [Byte.x63]] in
  payloadsSize a + payloadsSize b < 2 ^ 64 /\
  payloadsSize (a ++ b) = payloadsSize a + payloadsSize b.
Proof.
  intros a b.
  assert (H : payloadsSize a + payloadsSize b < 2 ^ 64) by (vm_compute; reflexivity).
  split; [exact H|]. apply (payload_accounting a b). exact H.
Defined.

(** ** [extend] *)

Lemma copy_at_fits (buf : Slice.t) (off : nat) (src : list Entry.t) :
  (off + length src <= Slice.length buf)%nat ->
  Slice.elems (copy_at buf off src)
  = take off (Slice.elems buf) ++ src ++ drop (off + length src) (Slice.elems buf).
Proof.
  intros Hfit. unfold copy_at. cbn [Slice.elems].
  rewrite (take_ge src) by lia. reflexivity.
Qed.

Lemma copy_at_length (buf : Slice.t) (off : nat) (src : list Entry.t) :
  (off <= Slice.length buf)%nat ->
  Slice.length (copy_at buf off src) = Slice.length buf.
Proof.
  intros Hoff. unfold copy_at, Slice.length. cbn [Slice.elems].
  rewrite !length_app, length_drop, !length_take. lia.
Qed.

Lemma extend_elems (grow : nat -> nat -> nat) (dst : Slice.t) (vals : list Entry.t) :
  Slice.elems (extend grow dst vals) = Slice.elems dst ++ vals.
Proof.
  unfold extend, append.
  destruct (_ <=? _)%nat; [reflexivity|].
  assert (Hmake : Slice.length (make (Slice.length dst + length vals))
                  = (Slice.length dst + length vals)%nat).
  { unfold make, Slice.length. cbn [Slice.elems]. apply length_replicate. }
  rewrite copy_at_fits by (rewrite copy_at_length by lia; rewrite Hmake; lia).
  rewrite copy_at_fits by (rewrite Nat.add_0_l, Hmake; unfold Slice.length; lia).
  unfold Slice.length in *. simpl.
  rewrite take_app_length.
  rewrite drop_ge, app_nil_r; [reflexivity|].
  rewrite length_app, length_drop, length_replicate. lia.
Qed.

Lemma append_elems (grow : nat -> nat -> nat) (dst : Slice.t) (vals : list Entry.t) :
  Slice.elems (append grow dst vals) = Slice.elems dst ++ vals.
Proof. unfold append. destruct (_ <=? _)%nat; reflexivity. Qed.

(** C7.  Whatever the capacity of [dst] and the growth policy of the
    built-in [append], [extend dst vals] has the elements of
    [append(dst, vals...)], which are those of [dst] followed by [vals]. *)
Theorem extend_same_elements_as_append
    (grow grow' : nat -> nat -> nat) (dst : Slice.t) (vals : list Entry.t) :
  Slice.elems (extend grow dst vals) = Slice.elems (append grow' dst vals) /\
  Slice.elems (extend grow dst vals) = Slice.elems dst ++ vals.
Proof. rewrite extend_elems, append_elems. split; reflexivity. Qed.

(** What [extend] changes is the allocation: a new array has no spare
    cell. *)
Lemma extend_allocates_exactly (grow : nat -> nat -> nat) (dst : Slice.t) (vals : list Entry.t) :
  (Slice.cap dst < Slice.length dst + length vals)%nat ->
  Slice.cap (extend grow dst vals) = (Slice.length dst + length vals)%nat.
Proof.
  intros Hcap. unfold Slice.cap at 1. rewrite extend_elems.
  unfold extend. destruct (Nat.leb_spec (Slice.length dst + length vals) (Slice.cap dst)); [lia|].
  simpl. rewrite length_app. unfold Slice.length. lia.
Qed.

(** ** The classification tables *)

Lemma foldr_max_lower (keys : list Z) : -1 <= foldr Z.max (-1) keys.
Proof. induction keys as [|k keys IH]; simpl; lia. Qed.

Lemma foldr_max_upper (keys : list Z) (k : Z) : k ∈ keys -> k <= foldr Z.max (-1) keys.
Proof.
  induction keys as [|k' keys IH]; intros Hin.
  - inversion Hin.
  - apply elem_of_cons in Hin as [->|Hin]; simpl; [lia|].
    specialize (IH Hin). lia.
Qed.

Lemma len_arrayLit (keys : list Z) : len (arrayLit keys) = foldr Z.max (-1) keys + 1.
Proof.
  unfold len, arrayLit. rewrite length_fmap, length_seq.
  pose proof (foldr_max_lower keys). lia.
Qed.

(** On a non-negative ordinal the lookup succeeds and tells whether the
    ordinal is a key of the literal. *)
Lemma isMsgInArray_arrayLit (keys : list Z) (i : Z) :
  0 <= i -> isMsgInArray i (arrayLit keys) = Some (bool_decide (i ∈ keys)).
Proof.
  intros Hi. unfold isMsgInArray, index. rewrite len_arrayLit.
  destruct (Z.ltb_spec i (foldr Z.max (-1) keys + 1)) as [Hlt|Hge].
  - destruct (Z.ltb_spec i 0); [lia|].
    destruct (Z.leb_spec (foldr Z.max (-1) keys + 1) i); [lia|]. simpl.
    unfold arrayLit. rewrite list_lookup_fmap, lookup_seq_lt by lia.
    simpl. rewrite Z2Nat.id by lia. reflexivity.
  - rewrite bool_decide_eq_false_2; [reflexivity|].
    intros Hin. apply foldr_max_upper in Hin. lia.
Qed.

(** Beyond the table the answer is [false], without any access. *)
Lemma isMsgInArray_beyond (arr : list bool) (i : Z) :
  len arr <= i -> isMsgInArray i arr = Some false.
Proof.
  intros Hge. unfold isMsgInArray. destruct (Z.ltb_spec i (len arr)); [lia|reflexivity].
Qed.

(** On a non-negative ordinal no access is out of range. *)
Lemma isMsgInArray_nonneg (arr : list bool) (i : Z) :
  0 <= i -> is_Some (isMsgInArray i arr).
Proof.
  intros Hi. unfold isMsgInArray, index.
  destruct (Z.ltb_spec i (len arr)) as [Hlt|Hge]; [|eauto].
  destruct (Z.ltb_spec i 0); [lia|].
  destruct (Z.leb_spec (len arr) i); [lia|]. simpl.
  apply lookup_lt_is_Some. unfold len in Hlt. lia.
Qed.

(** A negative ordinal passes the guard [i < len(arr)] and indexes the
    table out of range. *)
Lemma isMsgInArray_negative (arr : list bool) (i : Z) :
  i < 0 -> isMsgInArray i arr = None.
Proof.
  intros Hi. unfold isMsgInArray, index.
  assert (0 <= len arr) by (unfold len; lia).
  destruct (Z.ltb_spec i (len arr)); [|lia].
  destruct (Z.ltb_spec i 0); [reflexivity|lia].
Qed.

Section ClassificationFacts.

Variable ord : MessageType -> Z.
Hypothesis ord_nonneg : forall k, 0 <= ord k.
Hypothesis ord_inj : forall k k', ord k = ord k' -> k = k'.

Lemma elem_of_ord (k : MessageType) (ks : list MessageType) :
  ord k ∈ ord <$> ks <-> k ∈ ks.
Proof.
  rewrite list_elem_of_fmap. split.
  - intros (k' & Heq & Hin). apply ord_inj in Heq. subst. exact Hin.
  - intros Hin. exists k. split; [reflexivity|exact Hin].
Qed.

Lemma IsLocalMsg_kind (k : MessageType) : IsLocalMsg ord (ord k) = Some (spec_local k).
Proof.
  unfold IsLocalMsg, isLocalMsg. rewrite isMsgInArray_arrayLit by apply ord_nonneg.
  f_equal. rewrite (bool_decide_ext _ _ (elem_of_ord k _)).
  destruct k; reflexivity.
Qed.

Lemma IsResponseMsg_kind (k : MessageType) :
  IsResponseMsg ord (ord k) = Some (spec_response k).
Proof.
  unfold IsResponseMsg, isResponseMsg. rewrite isMsgInArray_arrayLit by apply ord_nonneg.
  f_equal. rewrite (bool_decide_ext _ _ (elem_of_ord k _)).
  destruct k; reflexivity.
Qed.

End ClassificationFacts.

Lemma raftpb_ord_nonneg (k : MessageType) : 0 <= raftpb_ord k.
Proof. destruct k; simpl; lia. Qed.

Lemma raftpb_ord_inj (k k' : MessageType) : raftpb_ord k = raftpb_ord k' -> k = k'.
Proof. destruct k, k'; simpl; intros H; try reflexivity; discriminate H. Qed.

(** C5.  With the ordinals of the kinds non-negative and distinct (as the
    array literals and the enum require), [IsLocalMsg] answers [true] on
    exactly the nine kinds of the specification's mapping and
    [IsResponseMsg] on exactly its eight kinds, and [false] on every other
    kind. *)
Theorem classification_agrees_with_static_mapping (ord : MessageType -> Z) :
  (forall k, 0 <= ord k) ->
  (forall k k', ord k = ord k' -> k = k') ->
  forall k : MessageType,
    IsLocalMsg ord (ord k) = Some (spec_local k) /\
    IsResponseMsg ord (ord k) = Some (spec_response k) /\
    (spec_local k = true <->
     k ∈ [MsgHup; MsgBeat; MsgUnreachable; MsgSnapStatus; MsgCheckQuorum;
          MsgStorageAppend; MsgStorageAppendResp; MsgStorageApply;
          MsgStorageApplyResp]) /\
    (spec_response k = true <->
     k ∈ [MsgAppResp; MsgVoteResp; MsgHeartbeatResp; MsgUnreachable;
          MsgReadIndexResp; MsgPreVoteResp; MsgStorageAppendResp;
          MsgStorageApplyResp]).
Proof.
  intros Hnn Hinj k.
  split; [apply IsLocalMsg_kind; assumption|].
  split; [apply IsResponseMsg_kind; assumption|].
  split.
  - rewrite <- (bool_decide_spec (k ∈ _)). destruct k; vm_compute; intuition congruence.
  - rewrite <- (bool_decide_spec (k ∈ _)). destruct k; vm_compute; intuition congruence.
Qed.

Lemma classification_agrees_with_static_mapping_witness :
  IsLocalMsg raftpb_ord (raftpb_ord MsgStorageApply) = Some true /\
  IsResponseMsg raftpb_ord (raftpb_ord MsgStorageApply) = Some false.
Proof.
  pose proof (classification_agrees_with_static_mapping raftpb_ord
                raftpb_ord_nonneg raftpb_ord_inj MsgStorageApply) as (Hl & Hr & _).
  split; [exact Hl|exact Hr].
Defined.

(** C9, at the input on which it fails.  The guard of [isMsgInArray] is
    [i < len(arr)] only: the ordinal -1, a value of [raftpb.MessageType],
    passes it and indexes the table out of range, whatever the ordinals of
    the kinds are. *)
Theorem classification_panics_on_negative_ordinal (ord : MessageType -> Z) :
  IsLocalMsg ord (-1) = None /\ IsResponseMsg ord (-1) = None.
Proof. split; apply isMsgInArray_negative; lia. Qed.

(** On the non-negative ordinals the functions are total, and [false]
    beyond their tables. *)
Lemma classification_total_on_nonneg (ord : MessageType -> Z) (msgt : Z) :
  0 <= msgt ->
  is_Some (IsLocalMsg ord msgt) /\ is_Some (IsResponseMsg ord msgt) /\
  (len (isLocalMsg ord) <= msgt -> IsLocalMsg ord msgt = Some false) /\
  (len (isResponseMsg ord) <= msgt -> IsResponseMsg ord msgt = Some false).
Proof.
  intros Hnn. repeat split.
  - apply isMsgInArray_nonneg, Hnn.
  - apply isMsgInArray_nonneg, Hnn.
  - apply isMsgInArray_beyond.
  - apply isMsgInArray_beyond.
Qed.

(** ** [voteRespMsgType] *)

(** C6.  [voteRespMsgType] maps [MsgVote] to [MsgVoteResp] and [MsgPreVote]
    to [MsgPreVoteResp]; it panics on exactly the other kinds, so that on a
    vote request the panic cannot happen. *)
Theorem voteRespMsgType_total_on_vote_requests :
  voteRespMsgType MsgVote = Some MsgVoteResp /\
  voteRespMsgType MsgPreVote = Some MsgPreVoteResp /\
  (forall k : MessageType,
     voteRespMsgType k = None <-> k <> MsgVote /\ k <> MsgPreVote) /\
  (forall k : MessageType,
     k = MsgVote \/ k = MsgPreVote -> is_Some (voteRespMsgType k)).
Proof.
  split; [reflexivity|]. split; [reflexivity|]. split.
  - intros k. destruct k; simpl; split; intros H;
      try reflexivity; try discriminate H;
      try (split; discriminate); destruct H as [H1 H2]; congruence.
  - intros k [-> | ->]; simpl; eauto.
Qed.

Lemma voteRespMsgType_total_on_vote_requests_witness :
  (MsgPreVote = MsgVote \/ MsgPreVote = MsgPreVote) /\
  is_Some (voteRespMsgType MsgPreVote).
Proof.
  assert (H : MsgPreVote = MsgVote \/ MsgPreVote = MsgPreVote) by (right; reflexivity).
  split; [exact H|].
  apply (proj2 (proj2 (proj2 voteRespMsgType_total_on_vote_requests)) MsgPreVote H).
Defined.

(** ** Describing entries *)

Section DescribeFacts.

Variable sprintf_q : list Byte.byte -> string.
Variable sprintf_entry : Z -> Z -> EntryType -> string -> string.
Variable ConfChange ConfChangeV2 : Type.
Variable unmarshalConfChange : list Byte.byte -> string + ConfChange.
Variable unmarshalConfChangeV2 : list Byte.byte -> string + ConfChangeV2.
Variable formatConfChange : ConfChange -> string.
Variable formatConfChangeV2 : ConfChangeV2 -> string.

Abbreviation describeEntry :=
  (DescribeEntry sprintf_q sprintf_entry ConfChange ConfChangeV2
     unmarshalConfChange unmarshalConfChangeV2 formatConfChange formatConfChangeV2).
Abbreviation describeEntries_loop :=
  (DescribeEntries_loop sprintf_q sprintf_entry ConfChange ConfChangeV2
     unmarshalConfChange unmarshalConfChangeV2 formatConfChange formatConfChangeV2).
Abbreviation describeEntries :=
  (DescribeEntries sprintf_q sprintf_entry ConfChange ConfChangeV2
     unmarshalConfChange unmarshalConfChangeV2 formatConfChange formatConfChangeV2).

Lemma DescribeEntry_nil (e : Entry.t) :
  describeEntry e None = describeEntry e (defaultFormatter sprintf_q).
Proof. reflexivity. Qed.

(** Without the guard the call of a [nil] formatter would be the only
    fault of [DescribeEntry]; with it there is none. *)
Lemma DescribeEntry_total (e : Entry.t) (f : EntryFormatter) :
  is_Some (describeEntry e f).
Proof.
  unfold DescribeEntry.
  destruct f as [g|]; destruct (Entry.Type' e); simpl;
    repeat match goal with |- context [match ?x with inl _ => _ | inr _ => _ end] =>
      destruct x end; simpl; eauto.
Qed.

Lemma DescribeEntries_loop_nil (ents : list Entry.t) (buf : string) :
  describeEntries_loop buf ents None
  = describeEntries_loop buf ents (defaultFormatter sprintf_q).
Proof.
  revert buf. induction ents as [|e ents IH]; intros buf; simpl; [reflexivity|].
  rewrite DescribeEntry_nil.
  destruct (describeEntry e (defaultFormatter sprintf_q)); simpl; [apply IH|reflexivity].
Qed.

Lemma DescribeEntries_loop_total (ents : list Entry.t) (f : EntryFormatter) (buf : string) :
  is_Some (describeEntries_loop buf ents f).
Proof.
  revert buf. induction ents as [|e ents IH]; intros buf; simpl; [eauto|].
  destruct (DescribeEntry_total e f) as [s ->]. simpl. apply IH.
Qed.

End DescribeFacts.

(** C8.  For every entry, [DescribeEntry] with a [nil] formatter returns,
    and returns what it does with the default renderer that quotes the
    payload; the same holds of [DescribeEntries]. *)
Theorem DescribeEntry_nil_formatter_is_default
    (sprintf_q : list Byte.byte -> string)
    (sprintf_entry : Z -> Z -> EntryType -> string -> string)
    (ConfChange ConfChangeV2 : Type)
    (unmarshalConfChange : list Byte.byte -> string + ConfChange)
    (unmarshalConfChangeV2 : list Byte.byte -> string + ConfChangeV2)
    (formatConfChange : ConfChange -> string)
    (formatConfChangeV2 : ConfChangeV2 -> string)
    (e : Entry.t) (ents : list Entry.t) :
  let describeEntry :=
    DescribeEntry sprintf_q sprintf_entry ConfChange ConfChangeV2
      unmarshalConfChange unmarshalConfChangeV2 formatConfChange formatConfChangeV2 in
  let describeEntries :=
    DescribeEntries sprintf_q sprintf_entry ConfChange ConfChangeV2
      unmarshalConfChange unmarshalConfChangeV2 formatConfChange formatConfChangeV2 in
  is_Some (describeEntry e None) /\
  describeEntry e None = describeEntry e (Some (fun data => sprintf_q data)) /\
  is_Some (describeEntries ents None) /\
  describeEntries ents None = describeEntries ents (Some (fun data => sprintf_q data)).
Proof.
  intros describeEntry describeEntries.
  split; [apply DescribeEntry_total|]. split; [apply DescribeEntry_nil|].
  split; [apply DescribeEntries_loop_total|apply DescribeEntries_loop_nil].
Qed.

(** For a normal entry the text is the quoted payload after a space. *)
Lemma DescribeEntry_normal_nil
    (sprintf_q : list Byte.byte -> string)
    (sprintf_entry : Z -> Z -> EntryType -> string -> string)
    (ConfChange ConfChangeV2 : Type)
    (unmarshalConfChange : list Byte.byte -> string + ConfChange)
    (unmarshalConfChangeV2 : list Byte.byte -> string + ConfChangeV2)
    (formatConfChange : ConfChange -> string)
    (formatConfChangeV2 : ConfChangeV2 -> string)
    (term index : Z) (data : list Byte.byte) :
  sprintf_q data <> EmptyString ->
  DescribeEntry sprintf_q sprintf_entry ConfChange ConfChangeV2
    unmarshalConfChange unmarshalConfChangeV2 formatConfChange formatConfChangeV2
    (Entry.mk term index EntryNormal data) None
  = Some (sprintf_entry term index EntryNormal (String.append " " (sprintf_q data))).
Proof.
  intros Hne. unfold DescribeEntry. simpl.
  rewrite bool_decide_eq_true_2 by exact Hne. reflexivity.
Qed.

(** * Properties of the test network *)

(** ** The random draws do not matter without drop percentages *)

Lemma u64_not_below_zero (z : Z) : (u64 z <? 0) = false.
Proof. apply Z.ltb_ge. apply u64_range. Qed.

Lemma filter_rng (nw : network.t) (msgs : list Message.t) :
  network.dropm64 nw = ∅ ->
  forall (rng rng' : nat -> Z) (pos pos' : nat),
    fst <$> network.filter rng pos nw msgs = fst <$> network.filter rng' pos' nw msgs.
Proof.
  intros Hdrop. induction msgs as [|m msgs IH]; intros rng rng' pos pos'; simpl.
  - reflexivity.
  - destruct (default false (network.ignorem nw !! Message.Type' m)); [apply IH|].
    rewrite Hdrop, lookup_empty. simpl. rewrite !u64_not_below_zero.
    specialize (IH rng rng' (S pos) (S pos')).
    destruct (Message.Type' m); try reflexivity;
      destruct (network.filter rng (S pos) nw msgs) as [[l n]| | |];
      destruct (network.filter rng' (S pos') nw msgs) as [[l' n']| | |];
      simpl in IH |- *; try discriminate IH; try (injection IH as ->); reflexivity.
Qed.

Lemma send_loop_rng (fuel : nat) :
  forall (nw : network.t) (msgs delivered : list Message.t)
         (rng rng' : nat -> Z) (pos pos' : nat),
    network.dropm64 nw = ∅ ->
    network.send_loop rng pos fuel nw msgs delivered = network.send_loop rng' pos' fuel nw msgs delivered.
Proof.
  induction fuel as [|fuel IH]; intros nw msgs delivered rng rng' pos pos' Hdrop;
    destruct msgs as [|m msgs]; simpl; try reflexivity.
  destruct (network.peers nw !! Message.To m) as [p|]; [|reflexivity].
  destruct (sm_Step m p) as [p1| | |]; simpl; try reflexivity.
  destruct (sm_advanceMessagesAfterAppend (S fuel) p1) as [p2| | |]; simpl; try reflexivity.
  destruct (sm_readMessages (S fuel) p2) as [[out p3]| | |]; simpl; try reflexivity.
  set (nw' := network.set_peers _ nw).
  pose proof (filter_rng nw' out Hdrop rng rng' pos pos') as Hf.
  destruct (network.filter rng pos nw' out) as [[l n]| | |];
    destruct (network.filter rng' pos' nw' out) as [[l' n']| | |];
    simpl in Hf |- *; try discriminate Hf; try (injection Hf as ->); try reflexivity.
  apply IH. exact Hdrop.
Qed.

Lemma network_send_rng (rng : nat -> Z) (fuel : nat) (nw : network.t)
    (msgs : list Message.t) :
  network.dropm64 nw = ∅ ->
  network.send rng fuel nw msgs = network.send (fun _ => 0) fuel nw msgs.
Proof. intros Hdrop. apply send_loop_rng, Hdrop. Qed.

Lemma newNetworkWithConfigInit_dropm64 (f : configFunc) (peers : list (option stateMachine)) :
  network.dropm64 (newNetworkWithConfigInit f peers) = ∅.
Proof.
  unfold newNetworkWithConfigInit.
  destruct (foldl _ _ _) as [npeers nstorage]. reflexivity.
Qed.

(** ** More fuel does not change a result *)

Lemma advanceMessagesAfterAppend_fuel (fuel : nat) :
  forall (fuel' : nat) (r : raft.t),
    (fuel <= fuel')%nat ->
    advanceMessagesAfterAppend fuel r <> OutOfFuel ->
    advanceMessagesAfterAppend fuel' r = advanceMessagesAfterAppend fuel r.
Proof.
  induction fuel as [|fuel IH]; intros fuel' r Hle Hfin; [simpl in Hfin; congruence|].
  destruct fuel' as [|fuel']; [lia|]. simpl in Hfin |- *.
  destruct (bool_decide _); [reflexivity|].
  destruct (stepOrSend _ _) as [r1| | |]; simpl in Hfin |- *; try reflexivity.
  apply IH; [lia|exact Hfin].
Qed.

Lemma sm_advanceMessagesAfterAppend_fuel (fuel fuel' : nat) (p : stateMachine) :
  (fuel <= fuel')%nat ->
  sm_advanceMessagesAfterAppend fuel p <> OutOfFuel ->
  sm_advanceMessagesAfterAppend fuel' p = sm_advanceMessagesAfterAppend fuel p.
Proof.
  intros Hle Hfin. destruct p as [r|]; [|reflexivity]. simpl in Hfin |- *.
  rewrite (advanceMessagesAfterAppend_fuel fuel fuel' r Hle); [reflexivity|].
  intros Heq. rewrite Heq in Hfin. apply Hfin. reflexivity.
Qed.

Lemma sm_readMessages_fuel (fuel fuel' : nat) (p : stateMachine) :
  (fuel <= fuel')%nat ->
  sm_readMessages fuel p <> OutOfFuel ->
  sm_readMessages fuel' p = sm_readMessages fuel p.
Proof.
  intros Hle Hfin. destruct p as [r|]; [|reflexivity].
  unfold sm_readMessages, readMessages in Hfin |- *.
  rewrite (advanceMessagesAfterAppend_fuel fuel fuel' r Hle); [reflexivity|].
  intros Heq. rewrite Heq in Hfin. apply Hfin. reflexivity.
Qed.

Lemma send_loop_fuel (rng : nat -> Z) (fuel : nat) :
  forall (fuel' pos : nat) (nw : network.t) (msgs delivered : list Message.t),
    (fuel <= fuel')%nat ->
    network.send_loop rng pos fuel nw msgs delivered <> OutOfFuel ->
    network.send_loop rng pos fuel' nw msgs delivered = network.send_loop rng pos fuel nw msgs delivered.
Proof.
  induction fuel as [|fuel IH]; intros fuel' pos nw msgs delivered Hle Hfin;
    destruct msgs as [|m msgs]; try (destruct fuel'; reflexivity);
    [simpl in Hfin; congruence|].
  destruct fuel' as [|fuel']; [lia|].
  cbn [network.send_loop] in Hfin |- *.
  destruct (network.peers nw !! Message.To m) as [p|]; [|reflexivity].
  destruct (sm_Step m p) as [p1| | |]; try reflexivity.
  cbn [mbind outcome_bind] in Hfin |- *.
  rewrite (sm_advanceMessagesAfterAppend_fuel (S fuel) (S fuel') p1 Hle);
    [|intros Heq; rewrite Heq in Hfin; apply Hfin; reflexivity].
  destruct (sm_advanceMessagesAfterAppend (S fuel) p1) as [p2| | |]; try reflexivity.
  cbn [mbind outcome_bind] in Hfin |- *.
  rewrite (sm_readMessages_fuel (S fuel) (S fuel') p2 Hle);
    [|intros Heq; rewrite Heq in Hfin; apply Hfin; reflexivity].
  destruct (sm_readMessages (S fuel) p2) as [[out p3]| | |]; try reflexivity.
  cbn [mbind outcome_bind] in Hfin |- *.
  destruct (network.filter rng pos _ out) as [[l n]| | |]; try reflexivity.
  cbn [mbind outcome_bind] in Hfin |- *.
  apply IH; [lia|exact Hfin].
Qed.

(** With no drop percentage, a run that ends within [fuel] steps for one
    sequence of draws is the run for every sequence and every larger
    bound. *)
Lemma network_send_enough (fuel : nat) (nw : network.t) (msgs : list Message.t)
    (res : network.t * list Message.t) :
  network.dropm64 nw = ∅ ->
  network.send (fun _ => 0) fuel nw msgs = Ok res ->
  forall (rng : nat -> Z) (fuel' : nat),
    (fuel <= fuel')%nat -> network.send rng fuel' nw msgs = Ok res.
Proof.
  intros Hdrop Hrun rng fuel' Hle.
  rewrite network_send_rng by exact Hdrop.
  unfold network.send in *.
  rewrite (send_loop_fuel _ fuel fuel') by (try lia; rewrite Hrun; discriminate).
  exact Hrun.
Qed.

(** ** Reading the result of a run *)

Lemma run_role_and_term (fuel : nat) (nw : network.t) (msgs : list Message.t)
    (id : Z) (st : StateType) (t : Z) :
  network.dropm64 nw = ∅ ->
  role_and_term (network.send (fun _ => 0) fuel nw msgs) id = Some (st, t) ->
  forall (rng : nat -> Z) (fuel' : nat),
    (fuel <= fuel')%nat ->
    exists nw' delivered a,
      network.send rng fuel' nw msgs = Ok (nw', delivered) /\
      network.send (fun _ => 0) fuel nw msgs = Ok (nw', delivered) /\
      peer nw' id = Some a /\ raft.state a = st /\ raft.Term a = t.
Proof.
  intros Hdrop Hrt rng fuel' Hle.
  destruct (network.send (fun _ => 0) fuel nw msgs) as [[nw' delivered]| | |] eqn:Hrun;
    try discriminate Hrt.
  simpl in Hrt. destruct (peer nw' id) as [a|] eqn:Hpeer; [|discriminate Hrt].
  simpl in Hrt. injection Hrt as Hst Ht.
  exists nw', delivered, a.
  split; [apply (network_send_enough fuel); assumption|]. auto.
Qed.


(** ** The transitions of a campaign and the term *)







(** ** A step changes the term only with the role *)























(** ** The election scenarios *)

(** C2.  In a network of three fresh nodes (term 0, empty logs), with or
    without pre-vote, the local election trigger at node 1 and the
    delivery of every message it causes, in the order of the test network,
    end with node 1 the Leader at term 1; this holds for every sequence of
    random draws and every bound of at least 20 deliveries. *)
Theorem election_among_fresh_nodes_elects_leader
    (f : configFunc) (rng : nat -> Z) (fuel : nat) :
  f = None \/ f = Some preVoteConfig ->
  (20 <= fuel)%nat ->
  (forall id : Z, id ∈ [1; 2; 3] ->
     exists r, peer (newNetworkWithConfigInit f [None; None; None]) id = Some r /\
               raft.state r = StateFollower /\ raft.Term r = 0 /\
               raftLog.entries (raft.log r) = []) /\
  exists nw' delivered a,
    network.send rng fuel (newNetworkWithConfigInit f [None; None; None]) [hupMsg]
    = Ok (nw', delivered) /\
    peer nw' 1 = Some a /\ raft.state a = StateLeader /\ raft.Term a = 1.
Proof.
  intros Hf Hfuel. split.
  - intros id Hid.
    destruct Hf as [Hf0 | Hf0]; rewrite Hf0 in *;
      repeat (apply elem_of_cons in Hid as [-> | Hid]); try (inversion Hid; fail);
      eexists; (split; [vm_compute; reflexivity|]); vm_compute; auto.
  - assert (Hrun : role_and_term
                     (network.send (fun _ => 0) 20
                        (newNetworkWithConfigInit f [None; None; None]) [hupMsg]) 1
                   = Some (StateLeader, 1))
      by (destruct Hf as [Hf0 | Hf0]; rewrite Hf0 in *; vm_compute; reflexivity).
    destruct (run_role_and_term _ _ _ _ _ _
                (newNetworkWithConfigInit_dropm64 _ _) Hrun rng fuel Hfuel)
      as (nw' & delivered & a & Hsend & _ & Ha & Hst & Ht).
    exists nw', delivered, a. auto.
Qed.

Lemma election_among_fresh_nodes_elects_leader_witness :
  exists nw' delivered a,
    network.send (fun _ => 0) 20 (newNetworkWithConfigInit None [None; None; None]) [hupMsg]
    = Ok (nw', delivered) /\
    peer nw' 1 = Some a /\ raft.state a = StateLeader /\ raft.Term a = 1.
Proof.
  apply (election_among_fresh_nodes_elects_leader None (fun _ => 0) 20).
  - left; reflexivity.
  - lia.
Defined.



(** The peers that [entsWithConfig] returns keep the id 1 and have no
    voters, and [newNetworkWithConfigInit] registers a given peer as it
    is.  Their answer to a vote request of node 1 is then addressed from 1
    to 1, which [stepOrSend] steps into the answering node itself: with
    such peers node 1 hears no rejection and stays a Candidate. *)
Remark entsWithConfig_peers_answer_themselves :
  (exists r, entsWithConfig None [1] = Ok r /\ raft.id r = 1 /\ raft.voters r = []) /\
  role_and_term
    (network.send (fun _ => 0) 10
       (newNetworkWithConfigInit None [None; rawEntries None [1]; rawEntries None [1]])
       [hupMsg]) 1
  = Some (StateCandidate, 1) /\
  rejections
    (network.send (fun _ => 0) 10
       (newNetworkWithConfigInit None [None; rawEntries None [1]; rawEntries None [1]])
       [hupMsg]) 1 [2] = false.
Proof.
  split; [eexists; split; [vm_compute; reflexivity|]; vm_compute; auto|].
  split; vm_compute; reflexivity.
Qed.

(** On the state machine as modelled, the first five networks of
    [testLeaderElection2] meet the expectations of the test in both modes;
    the sixth, whose peers come from [entsWithConfig] as they are, does
    not. *)
Remark testLeaderElection2_on_the_model (preVote : bool) :
  testLeaderElection2 (fun _ => 0) 30 preVote = [true; true; true; true; true; false].
Proof. destruct preVote; vm_compute; reflexivity. Qed.



(** Without pre-vote the same networks leave node 1 a Candidate at term 1,
    as the test expects. *)
Lemma vote_without_quorum_increments_term (rng : nat -> Z) (fuel : nat)
    (peers : list (option stateMachine)) :
  (6 <= fuel)%nat ->
  peers ∈ [[None; bh; bh]; [None; bh; bh; None]] ->
  exists nw' delivered a,
    network.send rng fuel (newNetworkWithConfigInit None peers) [hupMsg]
    = Ok (nw', delivered) /\
    peer nw' 1 = Some a /\ raft.state a = StateCandidate /\ raft.Term a = 1.
Proof.
  intros Hfuel Hin.
  assert (Hrun : role_and_term
                   (network.send (fun _ => 0) 6
                      (newNetworkWithConfigInit None peers) [hupMsg]) 1
                 = Some (StateCandidate, 1)).
  { repeat (apply elem_of_cons in Hin as [-> | Hin]); try (inversion Hin; fail);
      vm_compute; reflexivity. }
  destruct (run_role_and_term _ _ _ _ _ _
              (newNetworkWithConfigInit_dropm64 _ _) Hrun rng fuel Hfuel)
    as (nw' & delivered & a & Hsend & _ & Ha & Hst & Ht).
  exists nw', delivered, a. auto.
Qed.

(** * Further properties of the utilities *)

(** ** [limitSize]: the longest prefix, fixed points, no limit *)

Lemma limitSize_longest (Size : Entry.t -> Z) (ents : list Entry.t) (maxSize : Z) :
  limitSize Size ents maxSize = ents \/
  exists e k,
    ents = limitSize Size ents maxSize ++ e :: k /\
    maxSize < entsSize Size (limitSize Size ents maxSize ++ [e]).
Proof.
  destruct ents as [|e0 rest]; [left; reflexivity|].
  unfold limitSize.
  apply (limitSize_loop_longest Size (e0 :: rest) maxSize rest [e0] (i64 (Size e0))).
  - reflexivity.
  - rewrite u64_i64. unfold entsSize. simpl. rewrite u64_add_r. reflexivity.
Qed.


(** With every prefix of two entries or more within the cap, the loop runs
    to the end. *)
Lemma limitSize_loop_all_fit (Size : Entry.t -> Z) (ents : list Entry.t) (maxSize : Z) :
  forall (rest pre : list Entry.t) (size : Z),
    ents = pre ++ rest ->
    u64 size = entsSize Size pre ->
    (forall k : nat, (length pre < k <= length ents)%nat ->
                     entsSize Size (take k ents) <= maxSize) ->
    limitSize_loop Size ents maxSize size (length pre) rest = ents.
Proof.
  induction rest as [|e rest IH]; intros pre size Hents Hsize Hfit; simpl; [reflexivity|].
  assert (Hnew : u64 (i64 (size + i64 (Size e))) = entsSize Size (pre ++ [e])).
  { rewrite u64_i64, <- u64_add_r, u64_i64, u64_add_r.
    rewrite entsSize_snoc, <- Hsize. symmetry. apply u64_add_l. }
  assert (Htake : take (S (length pre)) ents = pre ++ [e]).
  { subst ents. rewrite (take_app_ge pre) by lia.
    replace (S (length pre) - length pre)%nat with 1%nat by lia. reflexivity. }
  destruct (Z.gtb_spec (u64 (i64 (size + i64 (Size e)))) maxSize) as [Hgt|Hle].
  - exfalso. specialize (Hfit (S (length pre))). rewrite Htake, <- Hnew in Hfit.
    assert (S (length pre) <= length ents)%nat
      by (subst ents; rewrite length_app; simpl; lia).
    lia.
  - specialize (IH (pre ++ [e]) (i64 (size + i64 (Size e)))).
    rewrite length_app in IH. simpl in IH.
    replace (length pre + 1)%nat with (S (length pre)) in IH by lia.
    apply IH; [rewrite <- app_assoc; exact Hents|exact Hnew|].
    intros k Hk. apply Hfit. lia.
Qed.

(** Every prefix of two entries or more of the result is within the cap. *)
Lemma limitSize_loop_prefixes_fit (Size : Entry.t -> Z) (ents : list Entry.t) (maxSize : Z) :
  forall (rest pre : list Entry.t) (size : Z),
    ents = pre ++ rest ->
    u64 size = entsSize Size pre ->
    (forall k : nat, (2 <= k <= length pre)%nat -> entsSize Size (take k pre) <= maxSize) ->
    let p := limitSize_loop Size ents maxSize size (length pre) rest in
    forall k : nat, (2 <= k <= length p)%nat -> entsSize Size (take k p) <= maxSize.
Proof.
  induction rest as [|e rest IH]; intros pre size Hents Hsize Hfit; simpl.
  - rewrite app_nil_r in Hents. subst ents. exact Hfit.
  - assert (Hnew : u64 (i64 (size + i64 (Size e))) = entsSize Size (pre ++ [e])).
    { rewrite u64_i64, <- u64_add_r, u64_i64, u64_add_r.
      rewrite entsSize_snoc, <- Hsize. symmetry. apply u64_add_l. }
    destruct (Z.gtb_spec (u64 (i64 (size + i64 (Size e)))) maxSize) as [Hgt|Hle].
    + subst ents. rewrite take_app_length. exact Hfit.
    + specialize (IH (pre ++ [e]) (i64 (size + i64 (Size e)))).
      rewrite length_app in IH. simpl in IH.
      replace (length pre + 1)%nat with (S (length pre)) in IH by lia.
      apply IH; [rewrite <- app_assoc; exact Hents|exact Hnew|].
      intros k Hk. destruct (decide (k <= length pre)%nat) as [Hin|Hout].
      * rewrite take_app_le by lia. apply Hfit. lia.
      * rewrite take_ge by (rewrite length_app; simpl; lia).
        rewrite <- Hnew. exact Hle.
Qed.

Lemma limitSize_prefixes_fit (Size : Entry.t -> Z) (ents : list Entry.t) (maxSize : Z) (k : nat) :
  (2 <= k <= length (limitSize Size ents maxSize))%nat ->
  entsSize Size (take k (limitSize Size ents maxSize)) <= maxSize.
Proof.
  destruct ents as [|e0 rest]; [simpl; lia|]. unfold limitSize.
  apply (limitSize_loop_prefixes_fit Size (e0 :: rest) maxSize rest [e0] (i64 (Size e0))).
  - reflexivity.
  - rewrite u64_i64. unfold entsSize. simpl. rewrite u64_add_r. reflexivity.
  - simpl. lia.
Qed.

Lemma limitSize_all_fit (Size : Entry.t -> Z) (ents : list Entry.t) (maxSize : Z) :
  (forall k : nat, (2 <= k <= length ents)%nat -> entsSize Size (take k ents) <= maxSize) ->
  limitSize Size ents maxSize = ents.
Proof.
  intros Hfit. destruct ents as [|e0 rest]; [reflexivity|]. unfold limitSize.
  apply (limitSize_loop_all_fit Size (e0 :: rest) maxSize rest [e0] (i64 (Size e0))).
  - reflexivity.
  - rewrite u64_i64. unfold entsSize. simpl. rewrite u64_add_r. reflexivity.
  - intros k Hk. apply Hfit. simpl in Hk |- *. lia.
Qed.

(** X2.  Cutting twice under the same cap is cutting once. *)
Theorem limitSize_idempotent
    (Size : Entry.t -> Z) (ents : list Entry.t) (maxSize : Z) :
  limitSize Size (limitSize Size ents maxSize) maxSize = limitSize Size ents maxSize.
Proof. apply limitSize_all_fit. intros k Hk. apply limitSize_prefixes_fit, Hk. Qed.

(** X3.  Under the cap [noLimit], the largest [uint64], nothing is ever cut;
    the empty list is returned as it is under every cap. *)
Theorem limitSize_noLimit (Size : Entry.t -> Z) (ents : list Entry.t) (maxSize : Z) :
  limitSize Size ents noLimit = ents /\ limitSize Size [] maxSize = [].
Proof.
  split; [|reflexivity]. apply limitSize_all_fit. intros k _.
  rewrite <- entsSize_u64. pose proof (u64_range (entsSize Size (take k ents))).
  unfold noLimit. lia.
Qed.

(** ** [entsSize] *)

(** The plain sum of the sizes of the entries. *)
Lemma entsSize_app (Size : Entry.t -> Z) (a b : list Entry.t) :
  entsSize Size (a ++ b) = u64 (entsSize Size a + entsSize Size b).
Proof.
  induction b as [|e b IH] using rev_ind.
  - rewrite app_nil_r. change (entsSize Size []) with 0.
    rewrite Z.add_0_r. symmetry. apply entsSize_u64.
  - rewrite app_assoc, !entsSize_snoc, IH.
    rewrite u64_add_l, u64_add_r. f_equal. lia.
Qed.

Lemma sum_app (l l' : list Z) :
  foldr Z.add 0 (l ++ l') = foldr Z.add 0 l + foldr Z.add 0 l'.
Proof. induction l as [|x l IH]; simpl; lia. Qed.

Lemma sizes_nonneg_take (Size : Entry.t -> Z) (ents : list Entry.t) (k : nat) :
  (forall e, e ∈ ents -> 0 <= Size e) ->
  0 <= foldr Z.add 0 (Size <$> take k ents) <= foldr Z.add 0 (Size <$> ents).
Proof.
  revert k. induction ents as [|e ents IH]; intros k Hnn.
  - rewrite take_nil. simpl. lia.
  - assert (He : 0 <= Size e) by (apply Hnn; left).
    assert (Hrest : forall e', e' ∈ ents -> 0 <= Size e')
      by (intros e' He'; apply Hnn; right; exact He').
    destruct k as [|k].
    + pose proof (IH 0%nat Hrest) as H0.
      change (take 0 (e :: ents)) with (@nil Entry.t).
      rewrite fmap_nil, fmap_cons. cbn [foldr]. lia.
    + pose proof (IH k Hrest) as Hk.
      change (take (S k) (e :: ents)) with (e :: take k ents).
      rewrite !fmap_cons. cbn [foldr]. lia.
Qed.

Lemma entsSize_exact (Size : Entry.t -> Z) (ents : list Entry.t) :
  (forall e, e ∈ ents -> 0 <= Size e) ->
  foldr Z.add 0 (Size <$> ents) < 2 ^ 64 ->
  entsSize Size ents = foldr Z.add 0 (Size <$> ents).
Proof.
  induction ents as [|e ents IH] using rev_ind; intros Hnn Hfit; [reflexivity|].
  rewrite entsSize_snoc.
  assert (Hsum : foldr Z.add 0 (Size <$> ents ++ [e])
                 = foldr Z.add 0 (Size <$> ents) + Size e).
  { rewrite fmap_app, sum_app. simpl. lia. }
  rewrite Hsum in Hfit |- *.
  assert (0 <= Size e) by (apply Hnn, elem_of_app; right; left).
  pose proof (sizes_nonneg_take Size ents (length ents)) as Hpos.
  rewrite take_ge in Hpos by lia.
  assert (0 <= foldr Z.add 0 (Size <$> ents))
    by (apply Hpos; intros e' He'; apply Hnn, elem_of_app; left; exact He').
  rewrite IH; [apply u64_small; lia| |lia].
  intros e' He'. apply Hnn, elem_of_app. left. exact He'.
Qed.

(** X6.  [entsSize] is additive, with the addition of [uint64]; when the sizes
    are non-negative and their plain sum is below 2^64, it is that sum. *)
Theorem entsSize_additive (Size : Entry.t -> Z) (a b : list Entry.t) :
  entsSize Size (a ++ b) = u64 (entsSize Size a + entsSize Size b) /\
  ((forall e, e ∈ a ++ b -> 0 <= Size e) ->
   foldr Z.add 0 (Size <$> a ++ b) < 2 ^ 64 ->
   entsSize Size (a ++ b) = foldr Z.add 0 (Size <$> a ++ b)).
Proof. split; [apply entsSize_app|apply entsSize_exact]. Qed.

(** X4.  A list whose plain size is within the cap is returned whole. *)
Theorem limitSize_within_cap_is_identity
    (Size : Entry.t -> Z) (ents : list Entry.t) (maxSize : Z) :
  (forall e, e ∈ ents -> 0 <= Size e) ->
  foldr Z.add 0 (Size <$> ents) <= maxSize ->
  foldr Z.add 0 (Size <$> ents) < 2 ^ 64 ->
  limitSize Size ents maxSize = ents.
Proof.
  intros Hnn Hcap Hfit. apply limitSize_all_fit. intros k _.
  pose proof (sizes_nonneg_take Size ents k Hnn) as Hk.
  rewrite entsSize_exact; [lia| |lia].
  intros e He. apply Hnn. apply (subseteq_take k ents), He.
Qed.

(** ** [limitSize] and the cap *)

Lemma limitSize_nonempty (Size : Entry.t -> Z) (ents : list Entry.t) (maxSize : Z) :
  ents <> [] -> limitSize Size ents maxSize <> [].
Proof. intros Hne. apply (limitSize_spec Size ents maxSize Hne). Qed.

(** X5.  A larger cap never gives fewer entries: the result under a cap is a
    prefix of the result under any larger cap. *)
Theorem limitSize_monotone
    (Size : Entry.t -> Z) (ents : list Entry.t) (maxSize maxSize' : Z) :
  maxSize <= maxSize' ->
  limitSize Size ents maxSize `prefix_of` limitSize Size ents maxSize'.
Proof.
  intros Hle. destruct ents as [|e0 rest]; [reflexivity|].
  set (ents := e0 :: rest).
  assert (Hp : limitSize Size ents maxSize `prefix_of` ents)
    by (apply (limitSize_spec Size ents maxSize); discriminate).
  destruct (limitSize_longest Size ents maxSize') as [Hall|(e & k & Hcut & Hover)].
  - rewrite Hall. exact Hp.
  - assert (Hq : limitSize Size ents maxSize' `prefix_of` ents)
      by (eexists; exact Hcut).
    destruct (prefix_weak_total _ _ _ Hp Hq) as [Hpq|[d Hd]]; [exact Hpq|].
    destruct d as [|x d]; [rewrite app_nil_r in Hd; rewrite Hd; reflexivity|].
    exfalso.
    assert (Hne : limitSize Size ents maxSize' <> [])
      by (apply limitSize_nonempty; discriminate).
    pose proof (limitSize_prefixes_fit Size ents maxSize
                  (S (length (limitSize Size ents maxSize')))) as Hfit.
    revert Hp Hcut Hover Hd Hne Hfit.
    generalize (limitSize Size ents maxSize') as q.
    generalize (limitSize Size ents maxSize) as p.
    intros p q [t Ht] Hcut Hover Hd Hne Hfit. subst p.
    rewrite Hcut, <- app_assoc in Ht. apply app_inv_head in Ht.
    injection Ht as -> _.
    assert (Hlen : (2 <= S (length q) <= length (q ++ x :: d))%nat).
    { rewrite length_app. simpl. destruct q; [congruence|simpl; lia]. }
    specialize (Hfit Hlen).
    rewrite (take_app_ge q) in Hfit by lia.
    replace (S (length q) - length q)%nat with 1%nat in Hfit by lia.
    change (take 1 (x :: d)) with [x] in Hfit. lia.
Qed.

Lemma limitSize_monotone_witness :
  let Size := fun e : Entry.t => 5 + len (Entry.Data e) in
  let e := Entry.mk 1 1 EntryNormal [] in
  limitSize Size [e; e; e] 12 `prefix_of` limitSize Size [e; e; e] 15.
Proof.
  intros Size e. apply (limitSize_monotone Size [e; e; e] 12 15). lia.
Defined.

Lemma limitSize_within_cap_is_identity_witness :
  let Size := fun e : Entry.t => 5 + len (Entry.Data e) in
  let e := Entry.mk 1 1 EntryNormal [] in
  limitSize Size [e; e] 12 = [e; e].
Proof.
  intros Size e.
  apply (limitSize_within_cap_is_identity Size [e; e] 12).
  - intros e' _. unfold Size, len. lia.
  - vm_compute. discriminate.
  - vm_compute. reflexivity.
Defined.

Lemma entsSize_additive_witness :
  let Size := fun e : Entry.t => 5 + len (Entry.Data e) in
  let e := Entry.mk 1 1 EntryNormal [] in
  entsSize Size ([e] ++ [e; e]) = foldr Z.add 0 (Size <$> [e] ++ [e; e]).
Proof.
  intros Size e.
  apply (entsSize_additive Size [e] [e; e]).
  - intros e' _. unfold Size, len. lia.
  - vm_compute. reflexivity.
Defined.

(** ** [extend]: what is allocated *)

(** X7.  [extend] keeps the array of [dst] when its capacity suffices, and
    otherwise allocates exactly the length needed, with no spare cell; in
    both cases the result has no more capacity than the built-in [append]
    gives. *)
Theorem extend_capacity
    (grow : nat -> nat -> nat) (dst : Slice.t) (vals : list Entry.t) :
  Slice.cap (extend grow dst vals)
  = (if (Slice.length dst + length vals <=? Slice.cap dst)%nat
     then Slice.cap dst else (Slice.length dst + length vals)%nat) /\
  ((Slice.cap dst < Slice.length dst + length vals)%nat ->
   Slice.spare (extend grow dst vals) = []) /\
  (Slice.cap (extend grow dst vals) <= Slice.cap (append grow dst vals))%nat.
Proof.
  assert (Hcap : Slice.cap (extend grow dst vals)
                 = (if (Slice.length dst + length vals <=? Slice.cap dst)%nat
                    then Slice.cap dst else (Slice.length dst + length vals)%nat)).
  { destruct (Nat.leb_spec (Slice.length dst + length vals) (Slice.cap dst)) as [Hle|Hgt].
    - unfold extend, append. rewrite (proj2 (Nat.leb_le _ _) Hle).
      unfold Slice.cap, Slice.length in *. simpl.
      rewrite length_app, length_drop. lia.
    - apply extend_allocates_exactly. exact Hgt. }
  split; [exact Hcap|]. split.
  - intros Hgt. unfold extend.
    destruct (Nat.leb_spec (Slice.length dst + length vals) (Slice.cap dst)); [lia|].
    reflexivity.
  - rewrite Hcap. unfold append.
    destruct (Nat.leb_spec (Slice.length dst + length vals) (Slice.cap dst)) as [Hle|Hgt].
    + unfold Slice.cap, Slice.length in *. simpl.
      rewrite length_app, length_drop. lia.
    + unfold Slice.cap, Slice.length in *. simpl.
      rewrite length_app, length_replicate. lia.
Qed.

Lemma extend_capacity_witness :
  let e := Entry.mk 1 1 EntryNormal [] in
  Slice.spare (extend (fun c n => n) (Slice.mk [e] [e]) [e; e]) = [].
Proof.
  intros e. apply (extend_capacity (fun c n => n) (Slice.mk [e] [e]) [e; e]).
  vm_compute. lia.
Defined.

(** ** Classification of unknown and of response kinds *)

(** X8.  A non-negative ordinal that is the ordinal of no kind, inside the range
    of the tables or beyond it, is classified as neither local nor a
    response, without a fault. *)
Theorem classification_of_unknown_kinds (ord : MessageType -> Z) (msgt : Z) :
  0 <= msgt ->
  (forall k : MessageType, ord k <> msgt) ->
  IsLocalMsg ord msgt = Some false /\ IsResponseMsg ord msgt = Some false.
Proof.
  intros Hnn Hnone.
  unfold IsLocalMsg, IsResponseMsg, isLocalMsg, isResponseMsg.
  rewrite !isMsgInArray_arrayLit by exact Hnn.
  split; f_equal; apply bool_decide_eq_false_2; rewrite list_elem_of_fmap;
    intros (k & Hk & _); apply (Hnone k); congruence.
Qed.

Lemma classification_of_unknown_kinds_witness :
  IsLocalMsg raftpb_ord 1000 = Some false /\ IsResponseMsg raftpb_ord 1000 = Some false.
Proof.
  apply (classification_of_unknown_kinds raftpb_ord 1000); [lia|].
  intros k. destruct k; simpl; lia.
Defined.

(** X9.  Whatever the ordinals of the kinds are, as long as they are
    non-negative and distinct: what [voteRespMsgType] returns is a kind that
    [IsResponseMsg] accepts and [IsLocalMsg] does not, and the vote requests
    themselves are neither. *)
Theorem voteRespMsgType_returns_response_kinds
    (ord : MessageType -> Z) (k k' : MessageType) :
  (forall k, 0 <= ord k) ->
  (forall k k', ord k = ord k' -> k = k') ->
  voteRespMsgType k = Some k' ->
  IsResponseMsg ord (ord k') = Some true /\ IsLocalMsg ord (ord k') = Some false /\
  IsResponseMsg ord (ord k) = Some false /\ IsLocalMsg ord (ord k) = Some false.
Proof.
  intros Hnn Hinj Hresp.
  rewrite !(IsResponseMsg_kind ord Hnn Hinj), !(IsLocalMsg_kind ord Hnn Hinj).
  destruct k; try discriminate Hresp; injection Hresp as <-; auto.
Qed.

Lemma voteRespMsgType_returns_response_kinds_witness :
  IsResponseMsg raftpb_ord (raftpb_ord MsgPreVoteResp) = Some true.
Proof.
  apply (voteRespMsgType_returns_response_kinds raftpb_ord MsgPreVote MsgPreVoteResp
           raftpb_ord_nonneg raftpb_ord_inj eq_refl).
Defined.

(** ** Descriptions *)

Lemma string_app_assoc (a b c : string) :
  String.append (String.append a b) c = String.append a (String.append b c).
Proof.
  induction a as [|ch a IH]; [reflexivity|].
  change (String ch (String.append (String.append a b) c)
          = String ch (String.append a (String.append b c))).
  rewrite IH. reflexivity.
Qed.

Lemma string_app_empty_r (a : string) : String.append a EmptyString = a.
Proof.
  induction a as [|ch a IH]; [reflexivity|].
  change (String ch (String.append a EmptyString) = String ch a).
  rewrite IH. reflexivity.
Qed.

Section DescribeMore.

Variable sprintf_q : list Byte.byte -> string.
Variable sprintf_entry : Z -> Z -> EntryType -> string -> string.
Variable ConfChange ConfChangeV2 : Type.
Variable unmarshalConfChange : list Byte.byte -> string + ConfChange.
Variable unmarshalConfChangeV2 : list Byte.byte -> string + ConfChangeV2.
Variable formatConfChange : ConfChange -> string.
Variable formatConfChangeV2 : ConfChangeV2 -> string.

Abbreviation describeEntry' :=
  (DescribeEntry sprintf_q sprintf_entry ConfChange ConfChangeV2
     unmarshalConfChange unmarshalConfChangeV2 formatConfChange formatConfChangeV2).
Abbreviation describeEntries_loop' :=
  (DescribeEntries_loop sprintf_q sprintf_entry ConfChange ConfChangeV2
     unmarshalConfChange unmarshalConfChangeV2 formatConfChange formatConfChangeV2).
Abbreviation describeEntries' :=
  (DescribeEntries sprintf_q sprintf_entry ConfChange ConfChangeV2
     unmarshalConfChange unmarshalConfChangeV2 formatConfChange formatConfChangeV2).

(** The buffer only grows: what the loop returns is the buffer followed by
    the text of the entries. *)
Lemma DescribeEntries_loop_buf (ents : list Entry.t) (f : EntryFormatter) :
  forall buf : string,
    describeEntries_loop' buf ents f
    = String.append buf <$> describeEntries_loop' EmptyString ents f.
Proof.
  induction ents as [|e ents IH]; intros buf; simpl.
  - rewrite string_app_empty_r. reflexivity.
  - destruct (describeEntry' e f) as [s|]; simpl; [|reflexivity].
    rewrite (IH (String.append buf _)), (IH (String.append EmptyString _)).
    change (String.append EmptyString (String.append s newline))
      with (String.append s newline).
    destruct (describeEntries_loop' EmptyString ents f) as [rest|]; simpl; [|reflexivity].
    rewrite string_app_assoc. reflexivity.
Qed.

Lemma DescribeEntries_loop_app (a b : list Entry.t) (f : EntryFormatter) :
  forall buf : string,
    describeEntries_loop' buf (a ++ b) f
    = describeEntries_loop' buf a f ≫= fun buf' => describeEntries_loop' buf' b f.
Proof.
  induction a as [|e a IH]; intros buf; simpl; [reflexivity|].
  destruct (describeEntry' e f) as [s|]; simpl; [apply IH|reflexivity].
Qed.

Lemma DescribeEntries_app_eq (a b : list Entry.t) (f : EntryFormatter) :
  describeEntries' (a ++ b) f
  = sa ← describeEntries' a f; sb ← describeEntries' b f; Some (String.append sa sb).
Proof.
  unfold DescribeEntries. rewrite DescribeEntries_loop_app.
  destruct (describeEntries_loop' EmptyString a f) as [sa|]; simpl; [|reflexivity].
  rewrite DescribeEntries_loop_buf.
  destruct (describeEntries_loop' EmptyString b f) as [sb|]; reflexivity.
Qed.

Lemma DescribeEntry_formatter_unused (e : Entry.t) (f g : EntryFormatter) :
  Entry.Type' e <> EntryNormal -> describeEntry' e f = describeEntry' e g.
Proof.
  intros Hty. unfold DescribeEntry.
  destruct (Entry.Type' e); [congruence| | |]; reflexivity.
Qed.

End DescribeMore.

(** X10.  [DescribeEntries] distributes over the concatenation of lists: the
    description of [a ++ b] is the description of [a] followed by the
    description of [b], and both exist. *)
Theorem DescribeEntries_app
    (sprintf_q : list Byte.byte -> string)
    (sprintf_entry : Z -> Z -> EntryType -> string -> string)
    (ConfChange ConfChangeV2 : Type)
    (unmarshalConfChange : list Byte.byte -> string + ConfChange)
    (unmarshalConfChangeV2 : list Byte.byte -> string + ConfChangeV2)
    (formatConfChange : ConfChange -> string)
    (formatConfChangeV2 : ConfChangeV2 -> string)
    (a b : list Entry.t) (f : EntryFormatter) :
  let describeEntries :=
    DescribeEntries sprintf_q sprintf_entry ConfChange ConfChangeV2
      unmarshalConfChange unmarshalConfChangeV2 formatConfChange formatConfChangeV2 in
  exists sa sb : string,
    describeEntries a f = Some sa /\ describeEntries b f = Some sb /\
    describeEntries (a ++ b) f = Some (String.append sa sb).
Proof.
  intros describeEntries. subst describeEntries.
  rewrite DescribeEntries_app_eq.
  destruct (DescribeEntries_loop_total sprintf_q sprintf_entry ConfChange ConfChangeV2
              unmarshalConfChange unmarshalConfChangeV2 formatConfChange
              formatConfChangeV2 a f EmptyString) as [sa Ha].
  destruct (DescribeEntries_loop_total sprintf_q sprintf_entry ConfChange ConfChangeV2
              unmarshalConfChange unmarshalConfChangeV2 formatConfChange
              formatConfChangeV2 b f EmptyString) as [sb Hb].
  exists sa, sb. unfold DescribeEntries. rewrite Ha, Hb. auto.
Qed.

(** X11.  The formatter is consulted for normal entries only: the description of
    an entry of any other type is the same whatever the formatter, so the
    application has no say in how a configuration change is shown (the
    source notes this as to be done). *)
Theorem DescribeEntry_formatter_only_for_normal_entries
    (sprintf_q : list Byte.byte -> string)
    (sprintf_entry : Z -> Z -> EntryType -> string -> string)
    (ConfChange ConfChangeV2 : Type)
    (unmarshalConfChange : list Byte.byte -> string + ConfChange)
    (unmarshalConfChangeV2 : list Byte.byte -> string + ConfChangeV2)
    (formatConfChange : ConfChange -> string)
    (formatConfChangeV2 : ConfChangeV2 -> string)
    (e : Entry.t) (f g : EntryFormatter) :
  Entry.Type' e <> EntryNormal ->
  DescribeEntry sprintf_q sprintf_entry ConfChange ConfChangeV2
    unmarshalConfChange unmarshalConfChangeV2 formatConfChange formatConfChangeV2 e f
  = DescribeEntry sprintf_q sprintf_entry ConfChange ConfChangeV2
      unmarshalConfChange unmarshalConfChangeV2 formatConfChange formatConfChangeV2 e g.
Proof. apply DescribeEntry_formatter_unused. Qed.

Lemma DescribeEntry_formatter_only_for_normal_entries_witness :
  let e := Entry.mk 2 7 EntryConfChangeV2 [Byte.x01] in
  DescribeEntry (fun _ => "q") (fun _ _ _ s => s) unit unit
    (fun _ => inl "bad") (fun _ => inr tt) (fun _ => "v1") (fun _ => "v2")
    e (Some (fun _ => "mine"))
  = DescribeEntry (fun _ => "q") (fun _ _ _ s => s) unit unit
      (fun _ => inl "bad") (fun _ => inr tt) (fun _ => "v1") (fun _ => "v2")
      e None.
Proof.
  intros e.
  apply (DescribeEntry_formatter_only_for_normal_entries
           (fun _ => "q") (fun _ _ _ s => s) unit unit
           (fun _ => inl "bad") (fun _ => inr tt) (fun _ => "v1") (fun _ => "v2")
           e (Some (fun _ => "mine")) None).
  discriminate.
Defined.

(** ** Targets *)

Lemma sprintf_x_inj (id id' : Z) :
  0 <= id -> 0 <= id' -> sprintf_x id = sprintf_x id' -> id = id'.
Proof.
  intros Hid Hid' Heq.
  apply (f_equal (fun s => HexString.Raw.to_N s 0%N)) in Heq.
  destruct id as [|p|p], id' as [|q|q]; try lia; unfold sprintf_x in Heq;
    rewrite ?HexString.Raw.to_N_of_pos in Heq; cbn in Heq;
    try congruence; discriminate Heq.
Qed.

(** A text that is not the base 16 form of the number it reads as is the
    form of no id. *)
Lemma sprintf_x_never (s : string) (id : Z) :
  sprintf_x (Z.of_N (HexString.Raw.to_N s 0%N)) <> s -> 0 <= id -> sprintf_x id <> s.
Proof.
  intros Hs Hid Heq. apply Hs. subst s.
  destruct id as [|p|p]; try lia; simpl.
  - reflexivity.
  - rewrite HexString.Raw.to_N_of_pos. reflexivity.
Qed.

Section TargetFacts.

Variable None' LocalAppendThread LocalApplyThread : Z.
Hypothesis None_append : None' <> LocalAppendThread.
Hypothesis None_apply : None' <> LocalApplyThread.
Hypothesis append_apply : LocalAppendThread <> LocalApplyThread.

Abbreviation describe := (describeTarget None' LocalAppendThread LocalApplyThread).
Abbreviation isLocal := (IsLocalMsgTarget LocalAppendThread LocalApplyThread).

Lemma describeTarget_cases (id : Z) :
  0 <= id ->
  (id = None' /\ describe id = "None") \/
  (id = LocalAppendThread /\ describe id = "AppendThread") \/
  (id = LocalApplyThread /\ describe id = "ApplyThread") \/
  (id <> None' /\ id <> LocalAppendThread /\ id <> LocalApplyThread /\
   describe id = sprintf_x id /\
   describe id <> "None" /\ describe id <> "AppendThread" /\ describe id <> "ApplyThread").
Proof.
  intros Hid. unfold describeTarget.
  case_bool_decide as H1; [left; auto|].
  case_bool_decide as H2; [right; left; auto|].
  case_bool_decide as H3; [right; right; left; auto|].
  right; right; right. repeat (split; [assumption || reflexivity|]).
  repeat split; apply sprintf_x_never; try exact Hid; vm_compute; discriminate.
Qed.

Lemma describeTarget_inj (id id' : Z) :
  0 <= id -> 0 <= id' -> describe id = describe id' -> id = id'.
Proof.
  intros Hid Hid' Heq.
  destruct (describeTarget_cases id Hid)
    as [[-> E]|[[-> E]|[[-> E]|(_ & _ & _ & E & N1 & N2 & N3)]]];
    destruct (describeTarget_cases id' Hid')
      as [[-> E']|[[-> E']|[[-> E']|(_ & _ & _ & E' & N1' & N2' & N3')]]];
    try reflexivity; try congruence.
  all: try (rewrite E, E' in Heq; discriminate Heq).
  apply sprintf_x_inj; congruence.
Qed.

Lemma IsLocalMsgTarget_describe (id : Z) :
  0 <= id ->
  isLocal id = true <-> describe id = "AppendThread" \/ describe id = "ApplyThread".
Proof.
  intros Hid. unfold IsLocalMsgTarget.
  destruct (describeTarget_cases id Hid)
    as [[-> E]|[[-> E]|[[-> E]|(H1 & H2 & H3 & E & N1 & N2 & N3)]]].
  - rewrite !bool_decide_eq_false_2 by assumption. rewrite E. simpl.
    split; [discriminate|intros [H|H]; discriminate H].
  - rewrite bool_decide_eq_true_2 by reflexivity. simpl. split; auto.
  - rewrite (bool_decide_eq_true_2 (LocalApplyThread = LocalApplyThread)) by reflexivity.
    rewrite orb_true_r. split; auto.
  - rewrite !bool_decide_eq_false_2 by assumption. simpl.
    split; [discriminate|intros [H|H]; contradiction].
Qed.

End TargetFacts.

(** X12.  With the three special ids distinct, [describeTarget] gives distinct
    texts to distinct ids (the ids are [uint64], so not negative), and the
    local targets of [IsLocalMsgTarget] are exactly the ids it shows as
    [AppendThread] or [ApplyThread]. *)
Theorem describeTarget_tells_targets_apart
    (None' LocalAppendThread LocalApplyThread : Z) (id id' : Z) :
  None' <> LocalAppendThread -> None' <> LocalApplyThread ->
  LocalAppendThread <> LocalApplyThread ->
  0 <= id -> 0 <= id' ->
  (describeTarget None' LocalAppendThread LocalApplyThread id
   = describeTarget None' LocalAppendThread LocalApplyThread id' -> id = id') /\
  (IsLocalMsgTarget LocalAppendThread LocalApplyThread id = true <->
   describeTarget None' LocalAppendThread LocalApplyThread id = "AppendThread" \/
   describeTarget None' LocalAppendThread LocalApplyThread id = "ApplyThread").
Proof.
  intros H1 H2 H3 Hid Hid'. split.
  - apply describeTarget_inj; assumption.
  - apply IsLocalMsgTarget_describe; assumption.
Qed.

Lemma describeTarget_tells_targets_apart_witness :
  IsLocalMsgTarget (2 ^ 64 - 1) (2 ^ 64 - 2) (2 ^ 64 - 2) = true <->
  describeTarget 0 (2 ^ 64 - 1) (2 ^ 64 - 2) (2 ^ 64 - 2) = "AppendThread" \/
  describeTarget 0 (2 ^ 64 - 1) (2 ^ 64 - 2) (2 ^ 64 - 2) = "ApplyThread".
Proof.
  apply (describeTarget_tells_targets_apart 0 (2 ^ 64 - 1) (2 ^ 64 - 2)
           (2 ^ 64 - 2) 3); lia.
Defined.

(** * Further properties of the test network *)

(** ** [filter] *)

(** X13.  What [filter] returns is a subsequence of what it is given, from which
    the ignored kinds, the election triggers and the messages the hook
    refuses are gone; it draws at most one random number per message. *)
Theorem filter_keeps_a_subsequence
    (rng : nat -> Z) (nw : network.t) (msgs out : list Message.t) (pos pos' : nat) :
  network.filter rng pos nw msgs = Ok (out, pos') ->
  out `sublist_of` msgs /\
  (pos <= pos' <= pos + length msgs)%nat /\
  (forall m, m ∈ out ->
     Message.Type' m <> MsgHup /\
     default false (network.ignorem nw !! Message.Type' m) = false /\
     (forall hook, network.msgHook nw = Some hook -> hook m = true)).
Proof.
  revert out pos pos'. induction msgs as [|m msgs IH]; intros out pos pos'; simpl.
  - intros [= <- <-]. split; [constructor|]. split; [lia|]. intros m Hm. inversion Hm.
  - destruct (default false (network.ignorem nw !! Message.Type' m)) eqn:Hign.
    { intros H. apply IH in H as (Hsub & Hpos & Hall).
      split; [apply sublist_cons, Hsub|]. split; [lia|exact Hall]. }
    assert (Hgo :
      (if u64 (rng pos) <?
          default 0 (network.dropm64 nw !! (Message.From m, Message.To m))
       then network.filter rng (S pos) nw msgs
       else
         '(mm, pos'0) ← network.filter rng (S pos) nw msgs;
         Ok (if match network.msgHook nw with
                | Some hook => hook m
                | None => true
                end then m :: mm else mm, pos'0)) = Ok (out, pos') ->
      Message.Type' m <> MsgHup ->
      out `sublist_of` m :: msgs /\ (pos <= pos' <= pos + S (length msgs))%nat /\
      (forall m0, m0 ∈ out ->
         Message.Type' m0 <> MsgHup /\
         default false (network.ignorem nw !! Message.Type' m0) = false /\
         (forall hook, network.msgHook nw = Some hook -> hook m0 = true))).
    { intros H Hty. destruct (_ <? _).
      - apply IH in H as (Hsub & Hpos & Hall).
        split; [apply sublist_cons, Hsub|]. split; [lia|exact Hall].
      - destruct (network.filter rng (S pos) nw msgs) as [[mm n]| | |] eqn:Hrest;
          simpl in H; try discriminate H.
        apply IH in Hrest as (Hsub & Hpos & Hall).
        destruct (match network.msgHook nw with Some hook => hook m | None => true end)
          eqn:Hkeep; injection H as <- <-.
        + split; [apply sublist_skip, Hsub|]. split; [lia|].
          intros m0 Hm0. apply elem_of_cons in Hm0 as [-> | Hm0]; [|apply Hall, Hm0].
          split; [exact Hty|]. split; [exact Hign|].
          intros hook Hhook. rewrite Hhook in Hkeep. exact Hkeep.
        + split; [apply sublist_cons, Hsub|]. split; [lia|exact Hall]. }
    destruct (Message.Type' m) eqn:Hty; try discriminate;
      intros H; apply Hgo; try exact H; discriminate.
Qed.

Lemma filter_keeps_a_subsequence_witness :
  [msg MsgVote 1 2] `sublist_of` [msg MsgApp 1 2; msg MsgVote 1 2].
Proof.
  apply (filter_keeps_a_subsequence (fun _ => 0) ignoringApp
           [msg MsgApp 1 2; msg MsgVote 1 2] [msg MsgVote 1 2] 0 1).
  vm_compute. reflexivity.
Defined.

(** X14.  [filter] panics exactly when it is given an election trigger while
    that kind is not ignored; it has no other failure. *)
Theorem filter_panics_on_hup
    (rng : nat -> Z) (nw : network.t) (msgs : list Message.t) (pos : nat) :
  ((exists why, network.filter rng pos nw msgs = Panic why) <->
   default false (network.ignorem nw !! MsgHup) = false /\
   exists m, m ∈ msgs /\ Message.Type' m = MsgHup) /\
  ((exists res, network.filter rng pos nw msgs = Ok res) <->
   default false (network.ignorem nw !! MsgHup) = true \/
   forall m, m ∈ msgs -> Message.Type' m <> MsgHup).
Proof.
  assert (Hcases :
    forall pos,
      (default false (network.ignorem nw !! MsgHup) = false /\
       (exists m, m ∈ msgs /\ Message.Type' m = MsgHup) /\
       exists why, network.filter rng pos nw msgs = Panic why)
      \/ ((default false (network.ignorem nw !! MsgHup) = true \/
           forall m, m ∈ msgs -> Message.Type' m <> MsgHup) /\
          exists res, network.filter rng pos nw msgs = Ok res)).
  { clear pos. induction msgs as [|m msgs IH]; intros pos; simpl.
    - right. split; [right; intros m Hm; inversion Hm|eauto].
    - destruct (default false (network.ignorem nw !! Message.Type' m)) eqn:Hign.
      + destruct (IH pos) as [(Hi & (m0 & Hm0 & Hty0) & Hp)|[Hok Hres]].
        * left. split; [exact Hi|]. split; [|exact Hp].
          exists m0. split; [right; exact Hm0|exact Hty0].
        * right. split; [|exact Hres]. destruct Hok as [Hok|Hok]; [left; exact Hok|].
          destruct (decide (Message.Type' m = MsgHup)) as [Heq|Hne].
          -- left. rewrite <- Heq. exact Hign.
          -- right. intros m0 Hm0. apply elem_of_cons in Hm0 as [-> | Hm0]; auto.
      + destruct (decide (Message.Type' m = MsgHup)) as [Heq|Hne].
        * left. rewrite Heq in Hign |- *. split; [exact Hign|].
          split; [exists m; split; [left|exact Heq]|eauto].
        * assert (Hstep :
            exists o,
              match Message.Type' m with
              | MsgHup => Panic "unexpected msgHup"
              | _ =>
                  if u64 (rng pos) <?
                     default 0 (network.dropm64 nw !! (Message.From m, Message.To m))
                  then network.filter rng (S pos) nw msgs
                  else
                    '(mm, pos') ← network.filter rng (S pos) nw msgs;
                    Ok (if match network.msgHook nw with
                           | Some hook => hook m
                           | None => true
                           end then m :: mm else mm, pos')
              end = o /\
              ((exists why, network.filter rng (S pos) nw msgs = Panic why) ->
               exists why, o = Panic why) /\
              ((exists res, network.filter rng (S pos) nw msgs = Ok res) ->
               exists res, o = Ok res)).
          { eexists. split; [reflexivity|].
            destruct (Message.Type' m); try congruence;
              destruct (_ <? _); split; intros [x Hx]; rewrite Hx; simpl; eauto;
              destruct x; simpl; eauto. }
          destruct Hstep as (o & -> & Hpanic & Hok).
          destruct (IH (S pos)) as [(Hi & (m0 & Hm0 & Hty0) & Hp)|[Hgood Hres]].
          -- left. split; [exact Hi|]. split; [|apply Hpanic, Hp].
             exists m0. split; [right; exact Hm0|exact Hty0].
          -- right. split; [|apply Hok, Hres].
             destruct Hgood as [Hgood|Hgood]; [left; exact Hgood|].
             right. intros m0 Hm0. apply elem_of_cons in Hm0 as [-> | Hm0]; auto. }
  split; split.
  - intros [why Hp]. destruct (Hcases pos) as [(Hi & Hm & _)|[_ [res Hres]]]; [auto|].
    rewrite Hres in Hp. discriminate Hp.
  - intros [Hi (m & Hm & Hty)].
    destruct (Hcases pos) as [(_ & _ & Hp)|[[Hok|Hok] _]]; [exact Hp| |].
    + rewrite Hok in Hi. discriminate Hi.
    + exfalso. apply (Hok m Hm), Hty.
  - intros [res Hres]. destruct (Hcases pos) as [(_ & _ & [why Hp])|[Hok _]]; [|exact Hok].
    rewrite Hp in Hres. discriminate Hres.
  - intros Hok. destruct (Hcases pos) as [(Hi & (m & Hm & Hty) & _)|[_ Hres]]; [|exact Hres].
    destruct Hok as [Hok|Hok]; [rewrite Hok in Hi; discriminate Hi|].
    exfalso. apply (Hok m Hm), Hty.
Qed.

Lemma filter_panics_on_hup_witness :
  exists why, network.filter (fun _ => 0) 0 ignoringApp [msg MsgApp 1 2; hupMsg] = Panic why.
Proof.
  apply (filter_panics_on_hup (fun _ => 0) ignoringApp [msg MsgApp 1 2; hupMsg] 0).
  split; [vm_compute; reflexivity|].
  exists hupMsg. split; [right; left|reflexivity].
Defined.

(** X15.  A network as [newNetworkWithConfigInit] builds it, with nothing to
    ignore, no drop percentage and no hook, lets every message through. *)
Theorem filter_lets_everything_through
    (rng : nat -> Z) (nw : network.t) (msgs : list Message.t) (pos : nat) :
  network.ignorem nw = ∅ -> network.dropm64 nw = ∅ -> network.msgHook nw = None ->
  (forall m, m ∈ msgs -> Message.Type' m <> MsgHup) ->
  network.filter rng pos nw msgs = Ok (msgs, (pos + length msgs)%nat).
Proof.
  intros Hign Hdrop Hhook. revert pos.
  induction msgs as [|m msgs IH]; intros pos Hno; simpl.
  - rewrite Nat.add_0_r. reflexivity.
  - rewrite Hign, Hdrop, Hhook, !lookup_empty. simpl. rewrite u64_not_below_zero.
    rewrite IH by (intros m0 Hm0; apply Hno; right; exact Hm0). simpl.
    replace (S (pos + length msgs))%nat with (pos + S (length msgs))%nat by lia.
    assert (Hty : Message.Type' m <> MsgHup) by (apply Hno; left).
    destruct (Message.Type' m); try reflexivity. congruence.
Qed.

Lemma filter_lets_everything_through_witness :
  network.filter (fun n => Z.of_nat n) 0
    (newNetworkWithConfigInit None [None; None]) [msg MsgVote 1 2; msg MsgApp 1 2]
  = Ok ([msg MsgVote 1 2; msg MsgApp 1 2], 2%nat).
Proof.
  apply (filter_lets_everything_through (fun n => Z.of_nat n)
           (newNetworkWithConfigInit None [None; None])
           [msg MsgVote 1 2; msg MsgApp 1 2] 0).
  - vm_compute. reflexivity.
  - vm_compute. reflexivity.
  - vm_compute. reflexivity.
  - intros m Hm. repeat (apply elem_of_cons in Hm as [-> | Hm]); try discriminate.
    inversion Hm.
Defined.

(** ** The queues of a node *)

Lemma stepOrSend_foreign (msgs : list Message.t) (r : raft.t) :
  (forall m, m ∈ msgs -> Message.To m <> raft.id r) ->
  stepOrSend msgs r = Ok (raft.set_msgs (raft.msgs r ++ msgs) r).
Proof.
  revert r. induction msgs as [|m msgs IH]; intros r Hto; simpl.
  - rewrite app_nil_r. destruct r; reflexivity.
  - rewrite bool_decide_eq_false_2 by (apply Hto; left). simpl.
    rewrite IH by (intros m0 Hm0; apply Hto; right; exact Hm0).
    simpl. rewrite <- app_assoc. reflexivity.
Qed.

(** X16.  The messages waiting for the append that are addressed to other nodes
    are moved to the outgoing queue in their order, without a step. *)
Theorem stepOrSend_forwards (msgs : list Message.t) (r : raft.t) :
  (forall m, m ∈ msgs -> Message.To m <> raft.id r) ->
  stepOrSend msgs r = Ok (raft.set_msgs (raft.msgs r ++ msgs) r).
Proof. apply stepOrSend_foreign. Qed.

Lemma stepOrSend_forwards_witness :
  stepOrSend (raft.msgsAfterAppend waitingFollower) waitingFollower
  = Ok (raft.set_msgs [msg MsgApp 1 2; msg MsgVoteResp 1 2; msg MsgAppResp 1 3]
          waitingFollower).
Proof.
  apply (stepOrSend_forwards (raft.msgsAfterAppend waitingFollower) waitingFollower).
  intros m Hm. repeat (apply elem_of_cons in Hm as [-> | Hm]); try discriminate.
  inversion Hm.
Defined.

Lemma advanceMessagesAfterAppend_drains (fuel : nat) :
  forall r r' : raft.t,
    advanceMessagesAfterAppend fuel r = Ok r' -> raft.msgsAfterAppend r' = [].
Proof.
  induction fuel as [|fuel IH]; intros r r'; simpl; [discriminate|].
  case_bool_decide as Hlen.
  - intros [= <-]. reflexivity.
  - destruct (stepOrSend _ _) as [r1| | |]; simpl; try discriminate. apply IH.
Qed.

(** X17.  After [readMessages] has returned, both queues of the node are empty:
    whatever the steps of the self-addressed messages do, nothing is left
    waiting for the append and nothing is left to send. *)
Theorem readMessages_empties_the_queues
    (fuel : nat) (r r' : raft.t) (out : list Message.t) :
  readMessages fuel r = Ok (out, r') ->
  raft.msgs r' = [] /\ raft.msgsAfterAppend r' = [].
Proof.
  unfold readMessages.
  destruct (advanceMessagesAfterAppend fuel r) as [r1| | |] eqn:Hadv; simpl; try discriminate.
  intros [= <- <-]. split; [reflexivity|].
  apply advanceMessagesAfterAppend_drains in Hadv. exact Hadv.
Qed.

(** X18.  When the messages waiting for the append are all addressed to other
    nodes, [readMessages] returns the outgoing queue followed by them. *)
Theorem readMessages_releases_in_order (fuel : nat) (r : raft.t) :
  (2 <= fuel)%nat ->
  (forall m, m ∈ raft.msgsAfterAppend r -> Message.To m <> raft.id r) ->
  readMessages fuel r
  = Ok (raft.msgs r ++ raft.msgsAfterAppend r,
        raft.set_msgs [] (raft.set_msgsAfterAppend [] r)).
Proof.
  intros Hfuel Hto. unfold readMessages.
  destruct fuel as [|[|fuel]]; try lia.
  cbn [advanceMessagesAfterAppend takeMessagesAfterAppend].
  case_bool_decide as Hlen.
  - assert (Hnil : raft.msgsAfterAppend r = [])
      by (destruct (raft.msgsAfterAppend r); [reflexivity|unfold len in Hlen; simpl in Hlen; lia]).
    simpl. rewrite Hnil, app_nil_r. reflexivity.
  - rewrite stepOrSend_foreign by exact Hto. simpl.
    reflexivity.
Qed.

Lemma readMessages_empties_the_queues_witness :
  raft.msgs (raft.set_msgs [] (raft.set_msgsAfterAppend [] waitingFollower)) = [] /\
  raft.msgsAfterAppend (raft.set_msgs [] (raft.set_msgsAfterAppend [] waitingFollower)) = [].
Proof.
  apply (readMessages_empties_the_queues 2 waitingFollower _
           [msg MsgApp 1 2; msg MsgVoteResp 1 2; msg MsgAppResp 1 3]).
  vm_compute. reflexivity.
Defined.

Lemma readMessages_releases_in_order_witness :
  readMessages 2 waitingFollower
  = Ok ([msg MsgApp 1 2; msg MsgVoteResp 1 2; msg MsgAppResp 1 3],
        raft.set_msgs [] (raft.set_msgsAfterAppend [] waitingFollower)).
Proof.
  apply (readMessages_releases_in_order 2 waitingFollower); [lia|].
  intros m Hm. repeat (apply elem_of_cons in Hm as [-> | Hm]); try discriminate.
  inversion Hm.
Defined.

(** ** [send] *)

Lemma set_peers_same (nw : network.t) (id : Z) (p : stateMachine) :
  network.peers nw !! id = Some p ->
  network.set_peers (<[id := p]> (network.peers nw)) nw = nw.
Proof.
  intros Hp. unfold network.set_peers. rewrite insert_id by exact Hp.
  destruct nw; reflexivity.
Qed.

Lemma send_loop_black_holes (rng : nat -> Z) (nw : network.t) (msgs : list Message.t) :
  (forall m, m ∈ msgs -> network.peers nw !! Message.To m = Some blackHoleSM) ->
  forall (fuel pos : nat) (delivered : list Message.t),
    (length msgs <= fuel)%nat ->
    network.send_loop rng pos fuel nw msgs delivered = Ok (nw, delivered ++ msgs).
Proof.
  induction msgs as [|m msgs IH]; intros Hbh fuel pos delivered Hfuel.
  - rewrite app_nil_r. destruct fuel; reflexivity.
  - destruct fuel as [|fuel]; [simpl in Hfuel; lia|].
    cbn [network.send_loop]. rewrite (Hbh m) by left.
    cbn [sm_Step sm_advanceMessagesAfterAppend sm_readMessages mbind outcome_bind].
    rewrite set_peers_same by (apply Hbh; left).
    cbn [network.filter mbind outcome_bind]. rewrite app_nil_r.
    rewrite IH; [rewrite <- app_assoc; reflexivity| |simpl in Hfuel; lia].
    intros m0 Hm0. apply Hbh. right. exact Hm0.
Qed.

(** X19.  Black holes swallow what they are sent: when every message is addressed
    to a black hole, [send] delivers the messages in their order, returns
    after as many deliveries, and leaves the network as it was. *)
Theorem send_to_black_holes
    (rng : nat -> Z) (fuel : nat) (nw : network.t) (msgs : list Message.t) :
  (forall m, m ∈ msgs -> network.peers nw !! Message.To m = Some blackHoleSM) ->
  (length msgs <= fuel)%nat ->
  network.send rng fuel nw msgs = Ok (nw, msgs).
Proof.
  intros Hbh Hfuel. unfold network.send.
  rewrite send_loop_black_holes by assumption. reflexivity.
Qed.

Lemma send_to_black_holes_witness :
  network.send (fun _ => 0) 2 (newNetworkWithConfigInit None [None; bh; bh])
    [msg MsgVote 1 2; msg MsgVote 1 3]
  = Ok (newNetworkWithConfigInit None [None; bh; bh], [msg MsgVote 1 2; msg MsgVote 1 3]).
Proof.
  apply (send_to_black_holes (fun _ => 0) 2 (newNetworkWithConfigInit None [None; bh; bh])
           [msg MsgVote 1 2; msg MsgVote 1 3]); [|simpl; lia].
  intros m Hm. repeat (apply elem_of_cons in Hm as [-> | Hm]);
    [vm_compute; reflexivity|vm_compute; reflexivity|inversion Hm].
Defined.

(** A message addressed to no peer of the network stops [send] with a
    panic, the call of a method of a nil interface. *)
Lemma send_loop_unknown_peer (rng : nat -> Z) (fuel pos : nat) (nw : network.t)
    (m : Message.t) (msgs delivered : list Message.t) :
  network.peers nw !! Message.To m = None ->
  network.send_loop rng pos (S fuel) nw (m :: msgs) delivered
  = Panic "nil pointer dereference".
Proof. intros Hp. cbn [network.send_loop]. rewrite Hp. reflexivity. Qed.

Lemma sm_Step_kind (m : Message.t) (p p' : stateMachine) :
  sm_Step m p = Ok p' -> same_kind p p'.
Proof.
  destruct p as [r|]; simpl.
  - destruct (Step m r); simpl; try discriminate. intros [= <-]. split; discriminate.
  - intros [= <-]. split; auto.
Qed.

Lemma sm_advance_kind (fuel : nat) (p p' : stateMachine) :
  sm_advanceMessagesAfterAppend fuel p = Ok p' -> same_kind p p'.
Proof.
  destruct p as [r|]; simpl.
  - destruct (advanceMessagesAfterAppend fuel r); simpl; try discriminate.
    intros [= <-]. split; discriminate.
  - intros [= <-]. split; auto.
Qed.

Lemma sm_readMessages_kind (fuel : nat) (p p' : stateMachine) (out : list Message.t) :
  sm_readMessages fuel p = Ok (out, p') -> same_kind p p'.
Proof.
  destruct p as [r|]; simpl.
  - destruct (readMessages fuel r) as [[ms r1]| | |]; simpl; try discriminate.
    intros [= <- <-]. split; discriminate.
  - intros [= <- <-]. split; auto.
Qed.

Lemma same_wiring_refl (nw : network.t) : same_wiring nw nw.
Proof. repeat split; auto. Qed.

Lemma same_wiring_step (nw : network.t) (id : Z) (p p' : stateMachine) :
  network.peers nw !! id = Some p ->
  same_kind p p' ->
  same_wiring nw (network.set_peers (<[id := p']> (network.peers nw)) nw).
Proof.
  intros Hp Hkind. repeat split; try reflexivity.
  - simpl. apply dom_insert_lookup_L. eauto.
  - simpl. destruct (decide (id = id0)) as [<-|Hne].
    + rewrite lookup_insert_eq, Hp. intros [= ->]. f_equal. apply Hkind. reflexivity.
    + rewrite lookup_insert_ne by exact Hne. auto.
  - simpl. destruct (decide (id = id0)) as [<-|Hne].
    + rewrite lookup_insert_eq, Hp. intros [= ->]. f_equal. apply Hkind. reflexivity.
    + rewrite lookup_insert_ne by exact Hne. auto.
Qed.

Lemma same_wiring_trans (nw1 nw2 nw3 : network.t) :
  same_wiring nw1 nw2 -> same_wiring nw2 nw3 -> same_wiring nw1 nw3.
Proof.
  intros (H1 & H2 & H3 & H4 & H5 & H6) (K1 & K2 & K3 & K4 & K5 & K6).
  repeat split; try congruence.
  - intros H. apply H6, K6, H.
  - intros H. apply K6, H6, H.
Qed.

Lemma send_loop_invariants (rng : nat -> Z) (fuel : nat) :
  forall (pos : nat) (nw nw' : network.t) (msgs delivered delivered' : list Message.t),
    network.send_loop rng pos fuel nw msgs delivered = Ok (nw', delivered') ->
    same_wiring nw nw' /\ exists later, delivered' = delivered ++ msgs ++ later.
Proof.
  induction fuel as [|fuel IH]; intros pos nw nw' msgs delivered delivered';
    destruct msgs as [|m msgs]; cbn [network.send_loop]; try discriminate;
    try (intros [= <- <-]; split; [apply same_wiring_refl|];
         exists []; rewrite !app_nil_r; reflexivity).
  destruct (network.peers nw !! Message.To m) as [p|] eqn:Hp; [|discriminate].
  destruct (sm_Step m p) as [p1| | |] eqn:H1; cbn [mbind outcome_bind]; try discriminate.
  destruct (sm_advanceMessagesAfterAppend (S fuel) p1) as [p2| | |] eqn:H2;
    cbn [mbind outcome_bind]; try discriminate.
  destruct (sm_readMessages (S fuel) p2) as [[out p3]| | |] eqn:H3;
    cbn [mbind outcome_bind]; try discriminate.
  destruct (network.filter rng pos _ out) as [[out' pos']| | |] eqn:H4;
    cbn [mbind outcome_bind]; try discriminate.
  intros Hrun. apply IH in Hrun as (Hw & later & ->).
  split.
  - eapply same_wiring_trans; [|exact Hw].
    apply (same_wiring_step nw (Message.To m) p p3 Hp).
    apply sm_Step_kind in H1. apply sm_advance_kind in H2. apply sm_readMessages_kind in H3.
    unfold same_kind in *. tauto.
  - exists (out' ++ later). rewrite <- !app_assoc. reflexivity.
Qed.

(** X20.  A run replaces the state of the nodes and nothing else: the storages,
    the drop percentages, the ignored kinds and the hook stay, no peer is
    added or removed, and the black holes stay the black holes.  The
    messages given are delivered first, in their order, before any message
    they cause. *)
Theorem send_keeps_the_wiring
    (rng : nat -> Z) (fuel : nat) (nw nw' : network.t) (msgs delivered : list Message.t) :
  network.send rng fuel nw msgs = Ok (nw', delivered) ->
  network.storage nw' = network.storage nw /\
  network.dropm64 nw' = network.dropm64 nw /\
  network.ignorem nw' = network.ignorem nw /\
  network.msgHook nw' = network.msgHook nw /\
  dom (network.peers nw') = dom (network.peers nw) /\
  (forall id, network.peers nw' !! id = Some blackHoleSM <->
              network.peers nw !! id = Some blackHoleSM) /\
  msgs `prefix_of` delivered.
Proof.
  unfold network.send. intros H.
  apply send_loop_invariants in H as ((H1 & H2 & H3 & H4 & H5 & H6) & later & ->).
  repeat (split; [assumption|]). exists later. reflexivity.
Qed.

Lemma send_keeps_the_wiring_witness :
  [msg MsgVote 1 2; msg MsgVote 1 3] `prefix_of` [msg MsgVote 1 2; msg MsgVote 1 3].
Proof.
  apply (send_keeps_the_wiring (fun _ => 0) 2
           (newNetworkWithConfigInit None [None; bh; bh])
           (newNetworkWithConfigInit None [None; bh; bh])
           [msg MsgVote 1 2; msg MsgVote 1 3] [msg MsgVote 1 2; msg MsgVote 1 3]).
  vm_compute. reflexivity.
Defined.

(** X21.  Without drop percentages the random source has no say: the run is the
    same whatever numbers are drawn. *)
Theorem send_ignores_the_random_source
    (rng rng' : nat -> Z) (fuel : nat) (nw : network.t) (msgs : list Message.t) :
  network.dropm64 nw = ∅ ->
  network.send rng fuel nw msgs = network.send rng' fuel nw msgs.
Proof. intros Hdrop. unfold network.send. apply send_loop_rng, Hdrop. Qed.

Lemma send_ignores_the_random_source_witness :
  network.send (fun n => Z.of_nat n) 20 (newNetworkWithConfigInit None [None; None; None])
    [hupMsg]
  = network.send (fun _ => 2 ^ 64 - 1) 20 (newNetworkWithConfigInit None [None; None; None])
      [hupMsg].
Proof.
  apply (send_ignores_the_random_source (fun n => Z.of_nat n) (fun _ => 2 ^ 64 - 1) 20
           (newNetworkWithConfigInit None [None; None; None]) [hupMsg]).
  apply newNetworkWithConfigInit_dropm64.
Defined.

(** ** [idsBySize] and [newNetworkWithConfigInit] *)

Lemma idsBySize_lookup (size i : nat) :
  (i < size)%nat -> idsBySize size !! i = Some (1 + Z.of_nat i).
Proof.
  intros Hi. unfold idsBySize. rewrite list_lookup_fmap, lookup_seq_lt by exact Hi.
  reflexivity.
Qed.

Lemma idsBySize_length (size : nat) : length (idsBySize size) = size.
Proof. unfold idsBySize. rewrite length_fmap, length_seq. reflexivity. Qed.

Lemma idsBySize_elem (size : nat) (id : Z) :
  id ∈ idsBySize size <-> 1 <= id <= Z.of_nat size.
Proof.
  unfold idsBySize. rewrite list_elem_of_fmap. split.
  - intros (i & -> & Hi). apply elem_of_seq in Hi. lia.
  - intros Hid. exists (Z.to_nat (id - 1)). split; [lia|]. apply elem_of_seq. lia.
Qed.

Lemma idsBySize_NoDup (size : nat) : NoDup (idsBySize size).
Proof.
  unfold idsBySize. apply NoDup_fmap_2; [|apply NoDup_seq].
  intros i j H. lia.
Qed.

(** X23.  [idsBySize n] is 1, 2, ..., n: as many distinct ids as asked for, none
    of them 0. *)
Theorem idsBySize_spec (size : nat) :
  length (idsBySize size) = size /\
  NoDup (idsBySize size) /\
  (forall i : nat, (i < size)%nat -> idsBySize size !! i = Some (1 + Z.of_nat i)) /\
  (forall id : Z, id ∈ idsBySize size <-> 1 <= id <= Z.of_nat size).
Proof.
  split; [apply idsBySize_length|]. split; [apply idsBySize_NoDup|].
  split; [intros i; apply idsBySize_lookup|apply idsBySize_elem].
Qed.

Lemma idsBySize_spec_witness : idsBySize 3 !! 2%nat = Some (1 + Z.of_nat 2).
Proof. apply (idsBySize_spec 3). lia. Defined.

Lemma registerPeer_lookup (f : configFunc) (addrs : list Z)
    (npeers : gmap Z stateMachine) (nstorage : gmap Z MemoryStorage.t)
    (id0 : Z) (p0 : option stateMachine) (id : Z) :
  (registerPeer f addrs (npeers, nstorage) (id0, p0)).1 !! id
  = (if decide (id0 = id) then Some (registered f addrs id0 p0) else npeers !! id) /\
  (registerPeer f addrs (npeers, nstorage) (id0, p0)).2 !! id
  = (if decide (id0 = id)
     then match p0 with
          | None => Some (newTestMemoryStorage [withPeers addrs])
          | Some _ => nstorage !! id
          end
     else nstorage !! id).
Proof.
  destruct p0 as [p|]; simpl; rewrite ?lookup_insert; destruct (decide (id0 = id)); auto.
Qed.

Lemma init_fold_lookup (f : configFunc) (addrs : list Z) (l : list (Z * option stateMachine)) :
  forall (acc : gmap Z stateMachine * gmap Z MemoryStorage.t) (id : Z),
    (id ∉ l.*1 ->
     (foldl (registerPeer f addrs) acc l).1 !! id = acc.1 !! id /\
     (foldl (registerPeer f addrs) acc l).2 !! id = acc.2 !! id) /\
    (NoDup l.*1 -> forall p, (id, p) ∈ l ->
       (foldl (registerPeer f addrs) acc l).1 !! id = Some (registered f addrs id p) /\
       (foldl (registerPeer f addrs) acc l).2 !! id
       = match p with
         | None => Some (newTestMemoryStorage [withPeers addrs])
         | Some _ => acc.2 !! id
         end).
Proof.
  induction l as [|[id0 p0] l IH]; intros [npeers nstorage] id; cbn [foldl].
  - split; [auto|]. intros _ p Hp. inversion Hp.
  - destruct (IH (registerPeer f addrs (npeers, nstorage) (id0, p0)) id) as [IHout IHin].
    destruct (registerPeer_lookup f addrs npeers nstorage id0 p0 id) as [R1 R2].
    split.
    + intros Hnot. rewrite fmap_cons, not_elem_of_cons in Hnot. destruct Hnot as [Hne Hnot].
      simpl in Hne. destruct (IHout Hnot) as [H1 H2]. rewrite H1, H2, R1, R2.
      destruct (decide (id0 = id)); [congruence|]. auto.
    + intros Hnd p Hp. rewrite fmap_cons in Hnd. apply NoDup_cons in Hnd as [Hfresh Hnd].
      simpl in Hfresh.
      apply elem_of_cons in Hp as [Heq|Hp].
      * injection Heq as -> ->. destruct (IHout Hfresh) as [H1 H2]. rewrite H1, H2, R1, R2.
        destruct (decide (id0 = id0)); [|congruence]. auto.
      * destruct (IHin Hnd p Hp) as [H1 H2]. rewrite H1. split; [reflexivity|].
        rewrite H2. destruct p as [s|]; [|reflexivity].
        rewrite R2. destruct (decide (id0 = id)) as [->|]; [|reflexivity].
        exfalso. apply Hfresh. apply list_elem_of_fmap. exists (id, Some s). auto.
Qed.

Lemma zip_idsBySize_elem (peers : list (option stateMachine)) (i : nat)
    (p : option stateMachine) :
  peers !! i = Some p -> (1 + Z.of_nat i, p) ∈ zip (idsBySize (length peers)) peers.
Proof.
  intros Hp. apply list_elem_of_lookup. exists i.
  apply lookup_zip_with_Some. exists (1 + Z.of_nat i), p.
  split; [reflexivity|]. split; [|exact Hp].
  apply idsBySize_lookup. apply lookup_lt_Some in Hp. exact Hp.
Qed.

Lemma zip_idsBySize_fst (peers : list (option stateMachine)) :
  (zip (idsBySize (length peers)) peers).*1 = idsBySize (length peers).
Proof. apply fst_zip. rewrite idsBySize_length. lia. Qed.

(** X22.  [newNetworkWithConfigInit] registers the peers under the addresses 1 to
    n of their positions.  A peer that is given is registered as it is,
    whatever id it carries itself, and gets no storage; a [nil] peer is a
    new node made for its address over a storage whose voters are all the
    addresses.  No other address has a peer, and the network starts with
    nothing to ignore, no drop percentage and no hook. *)
Theorem newNetworkWithConfigInit_registers
    (f : configFunc) (peers : list (option stateMachine)) :
  (forall (i : nat) (p : stateMachine),
     peers !! i = Some (Some p) ->
     network.peers (newNetworkWithConfigInit f peers) !! (1 + Z.of_nat i) = Some p /\
     network.storage (newNetworkWithConfigInit f peers) !! (1 + Z.of_nat i) = None) /\
  (forall i : nat,
     peers !! i = Some None ->
     network.peers (newNetworkWithConfigInit f peers) !! (1 + Z.of_nat i)
     = Some (raftSM (newRaft (applyConfigFunc f
                                (newTestConfig (1 + Z.of_nat i) 10 1
                                   (withPeers (idsBySize (length peers)) NewMemoryStorage))))) /\
     network.storage (newNetworkWithConfigInit f peers) !! (1 + Z.of_nat i)
     = Some (withPeers (idsBySize (length peers)) NewMemoryStorage)) /\
  (forall id : Z,
     id < 1 \/ Z.of_nat (length peers) < id ->
     network.peers (newNetworkWithConfigInit f peers) !! id = None) /\
  network.dropm64 (newNetworkWithConfigInit f peers) = ∅ /\
  network.ignorem (newNetworkWithConfigInit f peers) = ∅ /\
  network.msgHook (newNetworkWithConfigInit f peers) = None.
Proof.
  unfold newNetworkWithConfigInit.
  match goal with |- context [foldl ?F ?a ?l] =>
    change (foldl F a l) with (foldl (registerPeer f (idsBySize (length peers))) a l);
    pose proof (fun id => init_fold_lookup f (idsBySize (length peers)) l a id) as Hfold;
    destruct (foldl (registerPeer f (idsBySize (length peers))) a l)
      as [npeers nstorage] eqn:Hres
  end.
  cbn [network.peers network.storage network.dropm64 network.ignorem network.msgHook].
  assert (Hnd : NoDup (zip (idsBySize (length peers)) peers).*1)
    by (rewrite zip_idsBySize_fst; apply idsBySize_NoDup).
  split; [|split; [|split]]; [| | |auto].
  - intros i p Hp. destruct (Hfold (1 + Z.of_nat i)) as [_ Hin].
    destruct (Hin Hnd (Some p) (zip_idsBySize_elem peers i _ Hp)) as [H1 H2].
    simpl in H1, H2. rewrite lookup_empty in H2. auto.
  - intros i Hp. destruct (Hfold (1 + Z.of_nat i)) as [_ Hin].
    destruct (Hin Hnd None (zip_idsBySize_elem peers i _ Hp)) as [H1 H2].
    simpl in H1, H2. auto.
  - intros id Hid. destruct (Hfold id) as [Hout _].
    destruct Hout as [H1 _].
    + rewrite zip_idsBySize_fst, idsBySize_elem. lia.
    + simpl in H1. rewrite H1. apply lookup_empty.
Qed.

Lemma newNetworkWithConfigInit_registers_witness :
  network.peers (newNetworkWithConfigInit None [None; rawEntries None [1]]) !! (1 + Z.of_nat 1)
  = rawEntries None [1].
Proof.
  destruct (rawEntries None [1]) as [p|] eqn:Hraw; [|vm_compute in Hraw; discriminate Hraw].
  apply (newNetworkWithConfigInit_registers None [None; Some p]). reflexivity.
Defined.

(** ** [SortUint64] *)

Lemma insert_sorted_perm (x : Z) (l : list Z) : insert_sorted x l ≡ₚ x :: l.
Proof.
  induction l as [|y l IH]; simpl; [reflexivity|].
  destruct (x <=? y); [reflexivity|]. rewrite IH. apply Permutation_swap.
Qed.

Lemma insert_sorted_sorted (x : Z) (l : list Z) :
  Sorted Z.le l -> Sorted Z.le (insert_sorted x l).
Proof.
  induction l as [|y l IH]; intros Hs; simpl.
  - repeat constructor.
  - destruct (Z.leb_spec x y) as [Hle|Hgt].
    + constructor; [exact Hs|constructor; exact Hle].
    + apply Sorted_inv in Hs as [Hs Hhd]. constructor; [apply IH, Hs|].
      destruct l as [|z l]; simpl.
      * constructor. lia.
      * apply HdRel_inv in Hhd. destruct (x <=? z); constructor; lia.
Qed.

(** X24.  [SortUint64] returns the same ids in ascending order. *)
Theorem SortUint64_sorts (a : list Z) :
  Sorted Z.le (SortUint64 a) /\ SortUint64 a ≡ₚ a.
Proof.
  unfold SortUint64. induction a as [|x a [IHs IHp]]; simpl.
  - split; [constructor|reflexivity].
  - split; [apply insert_sorted_sorted, IHs|].
    rewrite insert_sorted_perm, IHp. reflexivity.
Qed.
